(** * Inference scheduling and result reconciliation for Amazon Lookout for
      Equipment: a shallow embedding of the notebooks' control code

    The repository drives a remote anomaly-detection service from two
    notebooks.  The cells that carry logic are

    - the ingestion status polling loop of the dataset-creation notebook,
    - the "wait for the first inference execution" loop of
      [5_inference_scheduling.ipynb] (cell 22),
    - the result aggregation cell of the same notebook (cell 28).

    The helper module [lookout_equipment_utils] (the [LookoutEquipmentScheduler]
    and [LookoutEquipmentDataset] classes) and the remote service itself are
    not part of the sources at hand: where a property is about them, the
    definitions below say so and follow the written specification. *)

From Stdlib Require Import ZArith String Ascii List Lia.
From stdpp Require Import base option list gmap strings sorting pretty.

Local Open Scope string_scope.
Local Open Scope Z_scope.
Local Open Scope list_scope.

Set Warnings "-register-all".

(** ** Python exceptions and the error monad of a notebook cell *)

(** The exceptions a cell of the notebooks can die of.  A raised exception
    aborts the cell: nothing below the raising statement runs. *)
Inductive exn : Type :=
| KeyError (k : string)            (* d[k] on a dict or frame without k *)
| IndexError                       (* l[i] out of range *)
| FileNotFoundError (path : string)(* open(path, 'r') on a missing file *)
| EvalError (line : string)        (* eval(line) raised, whatever the exception *)
| DataFrameError                   (* pd.DataFrame on rows that are not records *)
| DatetimeError.                   (* pd.to_datetime on a cell it cannot read *)

Definition result (A : Type) : Type := exn + A.

Definition raise {A} (e : exn) : result A := inl e.

#[global] Instance result_ret : MRet result := fun _ x => inr x.
#[global] Instance result_bind : MBind result := fun _ _ f m =>
  match m with
  | inl e => inl e
  | inr x => f x
  end.
#[global] Instance result_fmap : FMap result := fun _ _ f m =>
  match m with
  | inl e => inl e
  | inr x => inr (f x)
  end.

(** ** Strings: the fragment of [str] the cells use *)

(** [s.split(sep)] for a one-character separator. *)
Fixpoint split (sep : ascii) (s : string) : list string :=
  match s with
  | EmptyString => [EmptyString]
  | String c s' =>
      if Ascii.eqb c sep then EmptyString :: split sep s'
      else match split sep s' with
           | [] => [String c EmptyString]
           | w :: ws => String c w :: ws
           end
  end.

(** [l[-k]] for k >= 1: raises [IndexError] when the list is too short. *)
Definition index_from_end {A} (l : list A) (k : nat) : result A :=
  match rev l !! (k - 1)%nat with
  | Some x => mret x
  | None => raise IndexError
  end.

(** [c in s] for a character. *)
Fixpoint occurs (c : ascii) (s : string) : bool :=
  match s with
  | EmptyString => false
  | String c' s' => Ascii.eqb c' c || occurs c s'
  end.

(** [sep.join(l)]. *)
Fixpoint join (sep : ascii) (l : list string) : string :=
  match l with
  | [] => EmptyString
  | [w] => w
  | w :: ws => w +:+ String sep (join sep ws)
  end.

Lemma split_nonempty sep s : split sep s ≠ [].
Proof.
  destruct s as [|c s]; simpl; [done|].
  destruct (Ascii.eqb c sep); [done|]. by destruct (split sep s).
Qed.

Lemma split_without_separator sep s : occurs sep s = false → split sep s = [s].
Proof.
  induction s as [|c s IH]; simpl; [done|].
  destruct (Ascii.eqb c sep); simpl; [done|]. intros H. by rewrite (IH H).
Qed.

Lemma split_with_separator sep s :
  occurs sep s = true → (2 ≤ length (split sep s))%nat.
Proof.
  induction s as [|c s IH]; simpl; [done|].
  destruct (Ascii.eqb c sep); simpl.
  - intros _. pose proof (split_nonempty sep s). destruct (split sep s); simpl; [done|lia].
  - intros H. specialize (IH H). destruct (split sep s); simpl in *; lia.
Qed.

(** [(a + sep + b).split(sep) == a.split(sep) + b.split(sep)]. *)
Lemma split_app sep a b :
  split sep (a +:+ String sep b) = split sep a ++ split sep b.
Proof.
  induction a as [|c a IH]; simpl.
  - by rewrite Ascii.eqb_refl.
  - destruct (Ascii.eqb c sep); simpl; [by rewrite IH|].
    rewrite IH. pose proof (split_nonempty sep a). by destruct (split sep a).
Qed.

(** [sep.join(s.split(sep)) == s]. *)
Lemma join_split sep s : join sep (split sep s) = s.
Proof.
  induction s as [|c s IH]; simpl; [done|].
  destruct (Ascii.eqb_spec c sep) as [->|Hne]; simpl.
  - pose proof (split_nonempty sep s). destruct (split sep s) as [|w ws]; [done|].
    change (String sep (join sep (w :: ws)) = String sep s). by f_equal.
  - pose proof (split_nonempty sep s). destruct (split sep s) as [|w ws]; [done|].
    rewrite <- IH. by destruct ws.
Qed.

Lemma index_from_end_app_two {A} (l : list A) (x y : A) :
  index_from_end (l ++ [x; y]) 2 = inr x.
Proof.
  unfold index_from_end. by rewrite rev_app_distr.
Qed.

Lemma index_from_end_short {A} (l : list A) :
  (length l < 2)%nat → index_from_end l 2 = inl IndexError.
Proof.
  intros Hlen. unfold index_from_end.
  destruct (rev l !! (2 - 1)%nat) as [x|] eqn:Hx; [|done].
  apply lookup_lt_Some in Hx. rewrite length_rev in Hx. lia.
Qed.

Lemma index_from_end_long {A} (l : list A) :
  (2 ≤ length l)%nat → ∃ x, index_from_end l 2 = inr x.
Proof.
  intros Hlen. unfold index_from_end.
  destruct (rev l !! (2 - 1)%nat) as [x|] eqn:Hx; [by exists x|].
  apply lookup_ge_None in Hx. rewrite length_rev in Hx. lia.
Qed.

(** ** Execution summaries, as [ListInferenceExecutions] returns them *)

Record S3Object : Type := { Bucket : string; Key : string }.

(** The fields of an execution summary the notebooks read or describe: the
    instant the scheduler fired, the data window of the execution, its status
    and, for a successful one, where the results are.  Instants are seconds
    since the epoch; [CustomerResultObject] is [None] when the dict has no
    such key. *)
Record ExecutionSummary : Type := {
  ScheduledStartTime : Z;
  DataStartTime : Z;
  DataEndTime : Z;
  Status : string;
  CustomerResultObject : option S3Object
}.

(** ** The input file a scheduled run expects *)

Module Resolver.

(** The rule by which a scheduled run picks its input file lives in the
    remote service.  The repository describes it in the notebook's text only
    (the time zone example, and the run of 09:15 that finds the file stamped
    09:10 and not the one stamped 08:15) and has no function that computes
    it: this module is written from section 4.1 of the specification. *)

Inductive error : Type := InvalidConfiguration (option_name : string).

(** The scheduler parameters as the notebook hands them to
    [scheduler.set_parameters] (the location and role parameters play no part
    in the file name). *)
Record parameters : Type := {
  upload_frequency : string;      (* DATA_UPLOAD_FREQUENCY, 'PT5M' *)
  delay_offset : Z;               (* DATA_DELAY_OFFSET_IN_MINUTES, 2 *)
  timezone_offset : string;       (* INPUT_TIMEZONE_OFFSET, '+00:00' *)
  component_delimiter : string;   (* COMPONENT_TIMESTAMP_DELIMITER, '_' *)
  timestamp_format : string       (* TIMESTAMP_FORMAT, 'yyyyMMddHHmmss' *)
}.

Inductive format : Type :=
| EPOCH
| DASHED      (* yyyy-MM-dd-HH-mm-ss *)
| COMPACT.    (* yyyyMMddHHmmss *)

(** A validated configuration: the period in seconds, the delay and the
    offset from UTC in minutes. *)
Record ScheduleConfig : Type := {
  period : Z;
  delay : Z;
  utc_offset : Z;
  delimiter : string;
  fmt : format
}.

Definition parse_frequency (s : string) : option Z :=
  if String.eqb s "PT5M" then Some 300
  else if String.eqb s "PT10M" then Some 600
  else if String.eqb s "PT15M" then Some 900
  else if String.eqb s "PT30M" then Some 1800
  else if String.eqb s "PT1H" then Some 3600
  else None.

Definition parse_delimiter (s : string) : option string :=
  if String.eqb s "-" || String.eqb s "_" || String.eqb s " " then Some s else None.

Definition parse_format (s : string) : option format :=
  if String.eqb s "EPOCH" then Some EPOCH
  else if String.eqb s "yyyy-MM-dd-HH-mm-ss" then Some DASHED
  else if String.eqb s "yyyyMMddHHmmss" then Some COMPACT
  else None.

Definition digit_of (c : ascii) : option Z :=
  let n := Z.of_nat (nat_of_ascii c) in
  if (48 <=? n) && (n <=? 57) then Some (n - 48) else None.

(** [+HH:MM] or [-HH:MM], from -12:00 to +12:00 in steps of 30 minutes, as
    minutes. *)
Definition parse_timezone (s : string) : option Z :=
  match s with
  | String sg (String h1 (String h2 (String colon (String m1 (String m2 EmptyString))))) =>
      match digit_of h1, digit_of h2, digit_of m1, digit_of m2 with
      | Some a, Some b, Some c, Some d =>
          let minutes := (10 * a + b) * 60 + (10 * c + d) in
          if Ascii.eqb colon ":"%char
             && ((10 * c + d =? 0) || (10 * c + d =? 30))
             && (minutes <=? 720)
          then
            if Ascii.eqb sg "+"%char then Some minutes
            else if Ascii.eqb sg "-"%char then Some (- minutes)
            else None
          else None
      | _, _, _, _ => None
      end
  | _ => None
  end.

(** The calendar date of a day number (days since 1970-01-01), proleptic
    Gregorian. *)
Definition civil_from_days (days : Z) : Z * Z * Z :=
  let z := days + 719468 in
  let era := z / 146097 in
  let doe := z - era * 146097 in
  let yoe := (doe - doe / 1460 + doe / 36524 - doe / 146096) / 365 in
  let doy := doe - (365 * yoe + yoe / 4 - yoe / 100) in
  let mp := (5 * doy + 2) / 153 in
  let d := doy - (153 * mp + 2) / 5 + 1 in
  let m := if mp <? 10 then mp + 3 else mp - 9 in
  let y := yoe + era * 400 in
  (if m <=? 2 then y + 1 else y, m, d).

(** [n] in decimal on [width] digits, zero padded. *)
Fixpoint digits (width : nat) (n : Z) : string :=
  match width with
  | O => EmptyString
  | S w => digits w (n / 10) +:+ String (ascii_of_nat (48 + Z.to_nat (n mod 10))) EmptyString
  end.

(** A wall-clock reading (seconds since the epoch) in a timestamp format. *)
Definition render (f : format) (t : Z) : string :=
  let '(y, m, d) := civil_from_days (t / 86400) in
  let secs := t mod 86400 in
  let hh := secs / 3600 in
  let mi := secs mod 3600 / 60 in
  let ss := secs mod 60 in
  match f with
  | EPOCH => pretty t
  | DASHED =>
      digits 4 y +:+ "-" +:+ digits 2 m +:+ "-" +:+ digits 2 d +:+ "-"
        +:+ digits 2 hh +:+ "-" +:+ digits 2 mi +:+ "-" +:+ digits 2 ss
  | COMPACT =>
      digits 4 y +:+ digits 2 m +:+ digits 2 d
        +:+ digits 2 hh +:+ digits 2 mi +:+ digits 2 ss
  end.

(** Modelled from the spec: the validation of the options, which the
    repository leaves to the remote service.  Section 4.1: a frequency, a
    delimiter, a format or a timezone offset outside its enumeration is
    refused with [InvalidConfiguration]; no default is substituted. *)
Definition validate (p : parameters) : error + ScheduleConfig :=
  match parse_frequency (upload_frequency p) with
  | None => inl (InvalidConfiguration "upload_frequency")
  | Some period =>
      match parse_delimiter (component_delimiter p) with
      | None => inl (InvalidConfiguration "component_delimiter")
      | Some dl =>
          match parse_format (timestamp_format p) with
          | None => inl (InvalidConfiguration "timestamp_format")
          | Some f =>
              match parse_timezone (timezone_offset p) with
              | None => inl (InvalidConfiguration "timezone_offset")
              | Some off =>
                  inr {| period := period; delay := delay_offset p;
                         utc_offset := off; delimiter := dl; fmt := f |}
              end
          end
      end
  end.

(** Modelled from the spec: the file a run expects, which the remote
    service computes and the repository does not.  Section 4.1: for a run
    fired at [T] the expected input data window is [[T - upload_frequency, T)]
    and the filename timestamp is [T - upload_frequency]. *)
Definition data_window (cfg : ScheduleConfig) (T : Z) : Z * Z := (T - period cfg, T).

Definition filename_timestamp (cfg : ScheduleConfig) (T : Z) : Z := T - period cfg.

(** Modelled from the spec: the delay offset is a tolerance added to [T]
    before the run searches; it moves the time at which the run looks and
    not the file it expects. *)
Definition search_time (cfg : ScheduleConfig) (T : Z) : Z := T + 60 * delay cfg.

(** Modelled from the spec: the filename timestamp is put in local time with
    the timezone offset, formatted per the timestamp format, and joined to
    the component name with the delimiter, followed by [.csv]. *)
Definition local_time (cfg : ScheduleConfig) (t : Z) : Z := t + 60 * utc_offset cfg.

Definition expected_stamp (cfg : ScheduleConfig) (T : Z) : string :=
  render (fmt cfg) (local_time cfg (filename_timestamp cfg T)).

Definition expected_key (cfg : ScheduleConfig) (component : string) (T : Z) : string :=
  component +:+ delimiter cfg +:+ expected_stamp cfg T +:+ ".csv".

(** Modelled from the spec: the run fired at [T] takes a file exactly when
    it carries the expected name; a file stamped otherwise waits for its own
    run. *)
Definition matched (cfg : ScheduleConfig) (component : string) (T : Z) (fname : string)
  : bool :=
  String.eqb fname (expected_key cfg component T).

(** The run of the notebook's example: 2021-01-27T09:15:00Z. *)
Definition fire_0915 : Z := 1611738900.

(** The parameters the notebook sets. *)
Definition notebook_parameters : parameters :=
  {| upload_frequency := "PT5M"; delay_offset := 2; timezone_offset := "+00:00";
     component_delimiter := "_"; timestamp_format := "yyyyMMddHHmmss" |}.

Lemma validate_inr p cfg :
  validate p = inr cfg →
  parse_frequency (upload_frequency p) = Some (period cfg)
  ∧ parse_delimiter (component_delimiter p) = Some (delimiter cfg)
  ∧ parse_format (timestamp_format p) = Some (fmt cfg)
  ∧ parse_timezone (timezone_offset p) = Some (utc_offset cfg)
  ∧ delay cfg = delay_offset p.
Proof.
  unfold validate. intros H.
  destruct (parse_frequency _); [|done].
  destruct (parse_delimiter _); [|done].
  destruct (parse_format _); [|done].
  destruct (parse_timezone _); [|done].
  by simplify_eq.
Qed.

Lemma parse_frequency_positive s z : parse_frequency s = Some z → 0 < z.
Proof.
  unfold parse_frequency. intros H.
  repeat (destruct (String.eqb s _); [by simplify_eq|]). done.
Qed.

Lemma digit_of_range c z : digit_of c = Some z → 0 <= z <= 9.
Proof.
  unfold digit_of. intros H.
  destruct (48 <=? _) eqn:H1; [|done]. destruct (_ <=? 57) eqn:H2; [|done].
  simpl in H. simplify_eq. lia.
Qed.

(** A valid offset is a whole number of half hours between -12:00 and
    +12:00. *)
Lemma parse_timezone_steps s z :
  parse_timezone s = Some z → ∃ k, -24 <= k <= 24 ∧ z = 30 * k.
Proof.
  unfold parse_timezone. intros H.
  destruct s as [|sg [|h1 [|h2 [|colon [|m1 [|m2 [|]]]]]]]; try done.
  destruct (digit_of h1) as [a|] eqn:Ha; [|done].
  destruct (digit_of h2) as [b|] eqn:Hb; [|done].
  destruct (digit_of m1) as [c|] eqn:Hc; [|done].
  destruct (digit_of m2) as [d|] eqn:Hd; [|done].
  apply digit_of_range in Ha, Hb, Hc, Hd.
  destruct (Ascii.eqb colon ":"); [|done]. simpl in H.
  destruct (10 * c + d =? 0) eqn:H0; simpl in H.
  - destruct ((10 * a + b) * 60 + (10 * c + d) <=? 720) eqn:Hle; [|done].
    destruct (Ascii.eqb sg "+"); [|destruct (Ascii.eqb sg "-"); [|done]]; simplify_eq.
    + exists (2 * (10 * a + b)). lia.
    + exists (- (2 * (10 * a + b))). lia.
  - destruct (10 * c + d =? 30) eqn:H30; [|done]. simpl in H.
    destruct ((10 * a + b) * 60 + (10 * c + d) <=? 720) eqn:Hle; [|done].
    destruct (Ascii.eqb sg "+"); [|destruct (Ascii.eqb sg "-"); [|done]]; simplify_eq.
    + exists (2 * (10 * a + b) + 1). lia.
    + exists (- (2 * (10 * a + b) + 1)). lia.
Qed.

Lemma eqb_app_prefix pre x y :
  String.eqb (pre +:+ x) (pre +:+ y) = String.eqb x y.
Proof.
  induction pre as [|c pre IH]; simpl; [done|]. by rewrite Ascii.eqb_refl.
Qed.

(** Whatever the offset, the file stamped 08:15 is not the one the 09:15 run
    of a five-minute schedule expects. *)
Lemma stamp_0815_never_expected k :
  -24 <= k <= 24 →
  String.eqb ("20210127081500" +:+ ".csv")
    (render COMPACT (fire_0915 - 300 + 60 * (30 * k)) +:+ ".csv") = false.
Proof.
  intros Hk.
  assert (Hall : Forall (fun k =>
            String.eqb ("20210127081500" +:+ ".csv")
              (render COMPACT (fire_0915 - 300 + 60 * (30 * k)) +:+ ".csv") = false)
            (seqZ (-24) 49)).
  { apply (bool_decide_unpack _). vm_compute. exact I. }
  rewrite Forall_forall in Hall. apply Hall, elem_of_seqZ. lia.
Qed.

Lemma length_append a b :
  String.length (a +:+ b) = (String.length a + String.length b)%nat.
Proof. induction a as [|c a IH]; simpl; [done|]. by rewrite IH. Qed.

(** Two concatenations that agree and whose first parts have the same
    length agree part by part. *)
Lemma append_inj_length a c b d :
  String.length a = String.length c → a +:+ b = c +:+ d → a = c ∧ b = d.
Proof.
  revert c. induction a as [|x a IH]; intros [|y c] Hlen H; simpl in *; try done.
  injection H as -> H. destruct (IH c) as [-> ->]; [lia|done|done].
Qed.

Lemma append_cancel_r a c s : a +:+ s = c +:+ s → a = c.
Proof.
  intros H. apply (append_inj_length a c s s); [|done].
  apply (f_equal String.length) in H. rewrite !length_append in H. lia.
Qed.

Lemma digits_length w : ∀ n, String.length (digits w n) = w.
Proof.
  induction w as [|w IH]; intros n; simpl; [done|].
  rewrite length_append, IH. simpl. lia.
Qed.

Lemma digits_inj w : ∀ a b,
  0 <= a < 10 ^ Z.of_nat w → 0 <= b < 10 ^ Z.of_nat w →
  digits w a = digits w b → a = b.
Proof.
  induction w as [|w IH]; intros a b Ha Hb H.
  - change (10 ^ Z.of_nat 0) with 1 in Ha, Hb. lia.
  - rewrite Nat2Z.inj_succ, Z.pow_succ_r in Ha, Hb by lia. simpl in H.
    apply append_inj_length in H as [Hhigh Hlow]; [|by rewrite !digits_length].
    injection Hlow as Hlow. apply (f_equal nat_of_ascii) in Hlow.
    rewrite !nat_ascii_embedding in Hlow
      by (pose proof (Z.mod_pos_bound a 10); pose proof (Z.mod_pos_bound b 10); lia).
    apply IH in Hhigh; [|Z.div_mod_to_equations; lia..].
    Z.div_mod_to_equations; lia.
Qed.

(** The time of day a stamp shows decides the time of day of the instant. *)
Lemma render_time_of_day f a b :
  f ≠ EPOCH → render f a = render f b → a mod 86400 = b mod 86400.
Proof.
  intros Hf H. unfold render in H.
  destruct (civil_from_days (a / 86400)) as [[y m] d].
  destruct (civil_from_days (b / 86400)) as [[y' m'] d'].
  assert (Hfields :
    digits 2 (a mod 86400 / 3600) = digits 2 (b mod 86400 / 3600)
    ∧ digits 2 (a mod 86400 mod 3600 / 60) = digits 2 (b mod 86400 mod 3600 / 60)
    ∧ digits 2 (a mod 86400 mod 60) = digits 2 (b mod 86400 mod 60)).
  { destruct f; [done| |].
    - repeat match type of H with
             | _ +:+ _ = _ +:+ _ =>
                 apply append_inj_length in H as [? H];
                 [|by rewrite ?digits_length]
             end.
      done.
    - repeat match type of H with
             | _ +:+ _ = _ +:+ _ =>
                 apply append_inj_length in H as [? H];
                 [|by rewrite ?digits_length]
             end.
      done. }
  destruct Hfields as (Hh & Hm & Hs).
  apply (digits_inj 2) in Hh;
    [|change (10 ^ Z.of_nat 2) with 100; Z.div_mod_to_equations; lia..].
  apply (digits_inj 2) in Hm;
    [|change (10 ^ Z.of_nat 2) with 100; Z.div_mod_to_equations; lia..].
  apply (digits_inj 2) in Hs;
    [|change (10 ^ Z.of_nat 2) with 100; Z.div_mod_to_equations; lia..].
  Z.div_mod_to_equations; lia.
Qed.

(** Two instants less than a day apart never carry the same stamp. *)
Lemma render_shifted f t shift :
  0 < shift < 86400 → render f t ≠ render f (t - shift).
Proof.
  intros Hshift H. destruct f.
  - unfold render in H.
    destruct (civil_from_days (t / 86400)) as [[y m] d].
    destruct (civil_from_days ((t - shift) / 86400)) as [[y' m'] d'].
    apply (inj pretty) in H. lia.
  - apply render_time_of_day in H; [|done]. Z.div_mod_to_equations; lia.
  - apply render_time_of_day in H; [|done]. Z.div_mod_to_equations; lia.
Qed.

Lemma parse_frequency_values s z :
  parse_frequency s = Some z →
  (s, z) ∈ [("PT5M", 300); ("PT10M", 600); ("PT15M", 900); ("PT30M", 1800); ("PT1H", 3600)].
Proof.
  unfold parse_frequency.
  repeat match goal with
         | |- context [String.eqb s ?name] =>
             destruct (String.eqb_spec s name) as [->|_];
             [intros [= <-]; repeat first [by left | right] |]
         end.
  done.
Qed.

(** C1.  For every valid configuration the period is the duration the
    upload frequency names (five minutes to one hour), and for every fire
    time [T] the filename timestamp is [T] less that duration, the start of
    the data window: the run takes the file whose name carries the stamp of
    that instant in local time, and no other; it takes no file that carries
    the stamp of another instant less than a day away, and in particular not
    the one that carries the stamp of [T] itself.  For the run fired at
    2021-01-27T09:15:00Z with [PT5M] and the format [yyyyMMddHHmmss] the
    timestamp is 09:10:00, rendered [20210127091000] (which is the expected
    stamp when the offset is [+00:00]), and whatever the component, the
    delimiter and the timezone offset, the file stamped [20210127081500] is
    not matched by that run. *)
Theorem expected_file_is_one_period_back p cfg T :
  validate p = inr cfg →
  (upload_frequency p, period cfg)
    ∈ [("PT5M", 300); ("PT10M", 600); ("PT15M", 900); ("PT30M", 1800); ("PT1H", 3600)]
  ∧ filename_timestamp cfg T = T - period cfg
  ∧ filename_timestamp cfg T < T
  ∧ data_window cfg T = (filename_timestamp cfg T, T)
  ∧ (∀ component fname,
       matched cfg component T fname = true
       ↔ fname = component +:+ delimiter cfg
                   +:+ render (fmt cfg) (T - period cfg + 60 * utc_offset cfg) +:+ ".csv")
  ∧ (∀ component t,
       t ≠ T - period cfg → -86400 < t - (T - period cfg) < 86400 →
       matched cfg component T
         (component +:+ delimiter cfg
            +:+ render (fmt cfg) (t + 60 * utc_offset cfg) +:+ ".csv") = false)
  ∧ (∀ component,
       matched cfg component T
         (component +:+ delimiter cfg
            +:+ render (fmt cfg) (T + 60 * utc_offset cfg) +:+ ".csv") = false)
  ∧ (upload_frequency p = "PT5M" → timestamp_format p = "yyyyMMddHHmmss" →
       filename_timestamp cfg fire_0915 = 1611738600
       ∧ render (fmt cfg) (filename_timestamp cfg fire_0915) = "20210127091000"
       ∧ (timezone_offset p = "+00:00" →
            expected_stamp cfg fire_0915 = "20210127091000")
       ∧ ∀ component,
           matched cfg component fire_0915
             (component +:+ delimiter cfg +:+ "20210127081500" +:+ ".csv") = false).
Proof.
  intros Hv. destruct (validate_inr p cfg Hv) as (Hf & Hd & Hfmt & Htz & _).
  pose proof (parse_frequency_positive _ _ Hf) as Hpos.
  pose proof (parse_frequency_values _ _ Hf) as Hvalues.
  assert (Hday : period cfg < 86400).
  { repeat (apply elem_of_cons in Hvalues as [[= _ ->]|Hvalues]; [lia|]).
    by apply elem_of_nil in Hvalues. }
  unfold filename_timestamp, data_window.
  split; [done|]. split; [done|]. split; [lia|]. split; [done|].
  assert (Hother : ∀ component t,
            t ≠ T - period cfg → -86400 < t - (T - period cfg) < 86400 →
            matched cfg component T
              (component +:+ delimiter cfg
                 +:+ render (fmt cfg) (t + 60 * utc_offset cfg) +:+ ".csv") = false).
  { intros component t Hne Hnear. unfold matched, expected_key. rewrite !eqb_app_prefix.
    apply String.eqb_neq. intros H%append_cancel_r.
    unfold expected_stamp, local_time, filename_timestamp in H.
    destruct (Z.lt_ge_cases t (T - period cfg)) as [Hlt|Hge].
    - apply (render_shifted (fmt cfg) (T - period cfg + 60 * utc_offset cfg)
               (T - period cfg - t)); [lia|].
      rewrite <- H. f_equal. lia.
    - apply (render_shifted (fmt cfg) (t + 60 * utc_offset cfg)
               (t - (T - period cfg))); [lia|].
      rewrite H. f_equal. lia. }
  split; [|split; [done|split]].
  - intros component fname. unfold matched, expected_key, expected_stamp, local_time,
      filename_timestamp. apply String.eqb_eq.
  - intros component. apply Hother; lia.
  - intros Hfreq Hformat. rewrite Hfreq in Hf. rewrite Hformat in Hfmt.
    change (parse_frequency "PT5M") with (Some 300) in Hf.
    change (parse_format "yyyyMMddHHmmss") with (Some COMPACT) in Hfmt.
    injection Hf as Hf. injection Hfmt as Hfmt.
    split; [|split; [|split]].
    + rewrite <- Hf. reflexivity.
    + rewrite <- Hf, <- Hfmt. vm_compute. reflexivity.
    + intros Hzone. rewrite Hzone in Htz.
      change (parse_timezone "+00:00") with (Some 0) in Htz. injection Htz as Htz.
      unfold expected_stamp, local_time, filename_timestamp.
      rewrite <- Hf, <- Hfmt, <- Htz. vm_compute. reflexivity.
    + intros component. unfold matched, expected_key.
      rewrite !eqb_app_prefix.
      unfold expected_stamp, local_time, filename_timestamp. rewrite <- Hf, <- Hfmt.
      destruct (parse_timezone_steps _ _ Htz) as (k & Hk & ->).
      by apply stamp_0815_never_expected.
Qed.

(** The notebook's parameters, and a schedule of thirty minutes on files
    stamped in Indian time with dashes. *)
Definition half_hour_parameters : parameters :=
  {| upload_frequency := "PT30M"; delay_offset := 0; timezone_offset := "+05:30";
     component_delimiter := "-"; timestamp_format := "yyyy-MM-dd-HH-mm-ss" |}.

Lemma expected_file_is_one_period_back_witness :
  validate notebook_parameters
    = inr {| period := 300; delay := 2; utc_offset := 0; delimiter := "_"; fmt := COMPACT |}
  ∧ expected_key {| period := 300; delay := 2; utc_offset := 0; delimiter := "_";
                    fmt := COMPACT |} "centrifugal-pump" fire_0915
    = "centrifugal-pump_20210127091000.csv"
  ∧ matched {| period := 300; delay := 2; utc_offset := 0; delimiter := "_";
               fmt := COMPACT |} "centrifugal-pump" fire_0915
      "centrifugal-pump_20210127081500.csv" = false
  ∧ matched {| period := 300; delay := 2; utc_offset := 0; delimiter := "_";
               fmt := COMPACT |} "centrifugal-pump" fire_0915
      "centrifugal-pump_20210127091500.csv" = false
  ∧ matched {| period := 1800; delay := 0; utc_offset := 330; delimiter := "-";
               fmt := DASHED |} "pump" fire_0915 "pump-2021-01-27-14-15-00.csv" = true.
Proof.
  pose proof (expected_file_is_one_period_back notebook_parameters
                {| period := 300; delay := 2; utc_offset := 0; delimiter := "_";
                   fmt := COMPACT |} fire_0915 eq_refl)
    as (_ & _ & _ & _ & _ & _ & Hself & Hrun).
  destruct (Hrun eq_refl eq_refl) as (_ & _ & Hstamp & Hmiss).
  pose proof (expected_file_is_one_period_back half_hour_parameters
                {| period := 1800; delay := 0; utc_offset := 330; delimiter := "-";
                   fmt := DASHED |} fire_0915 eq_refl)
    as (_ & _ & _ & _ & Htakes & _).
  split; [reflexivity|]. split; [|split; [|split]].
  - unfold expected_key. rewrite (Hstamp eq_refl). reflexivity.
  - apply (Hmiss "centrifugal-pump").
  - apply (Hself "centrifugal-pump").
  - apply (Htakes "pump" "pump-2021-01-27-14-15-00.csv"). vm_compute. reflexivity.
Defined.

End Resolver.

(** ** The ingestion job: start once, then poll the status *)

Module Ingestion.

(** What the two cells do that can be observed from outside. *)
Inductive event : Type :=
| EvStartDataIngestionJob (dataset bucket prefix : string)
    (* lookout_dataset.ingest_data(BUCKET, PREFIX) *)
| EvBanner (text : string)                (* the text without its newlines *)
| EvSleep (seconds : Z)                  (* time.sleep(60) *)
| EvDescribe (JobId : string)            (* describe_data_ingestion_job(JobId=...) *)
| EvStatusLine (clock : Z) (status : string).
    (* print(str(pd.to_datetime(datetime.now()))[:19], "|", status) *)

Definition is_start (ev : event) : bool :=
  match ev with
  | EvStartDataIngestionJob _ _ _ => true
  | _ => false
  end.

Section Polling.

Variables DATASET_NAME BUCKET PREFIX : string.

(** The service's answer to [StartDataIngestionJob]: the job id and the
    first status. *)
Variable JobId : string.
Variable first_status : string.

(** The ['Status'] of the answer to the k-th [DescribeDataIngestionJob]
    call for a job, counted from 0. *)
Variable describe_data_ingestion_job : string -> nat -> string.

(** The polling loop.  [now] is the clock in seconds: [time.sleep(60)]
    advances it by 60 and nothing else takes time.  The loop has no bound of
    its own; [fuel] bounds the number of iterations the model follows, and
    the outcome is [None] when the loop is still running after them. *)
Fixpoint polling_loop (fuel k : nat) (now : Z) (data_ingestion_status : string)
  : list event * option (Z * string) :=
  match fuel with
  | O =>
      if String.eqb data_ingestion_status "IN_PROGRESS" then ([], None)
      else ([], Some (now, data_ingestion_status))
  | S fuel' =>
      if String.eqb data_ingestion_status "IN_PROGRESS" then
        let now' := now + 60 in
        let status' := describe_data_ingestion_job JobId k in
        let '(evs, out) := polling_loop fuel' (S k) now' status' in
        (EvSleep 60 :: EvDescribe JobId :: EvStatusLine now' status' :: evs, out)
      else ([], Some (now, data_ingestion_status))
  end.

(** The polling cell: the banner, the first status line, the loop and the
    closing banner. *)
Definition polling_cell (fuel : nat) (now : Z) : list event * option (Z * string) :=
  let data_ingestion_job_id := JobId in
  let data_ingestion_status := first_status in
  let '(evs, out) := polling_loop fuel 0 now data_ingestion_status in
  (EvBanner "=====Polling Data Ingestion Status====="
     :: EvStatusLine now data_ingestion_status
     :: evs
     ++ match out with
        | Some _ => [EvBanner "=====End of Polling Data Ingestion Status====="]
        | None => []
        end,
   out).

(** The ingestion cell followed by the polling cell. *)
Definition ingest_then_poll (fuel : nat) (now : Z) : list event * option (Z * string) :=
  let '(evs, out) := polling_cell fuel now in
  (EvStartDataIngestionJob DATASET_NAME BUCKET PREFIX :: evs, out).

(** The statuses in the order the cell sees them: the one of the start
    answer, then the answers to the describe calls. *)
Definition status_at (i : nat) : string :=
  match i with
  | O => first_status
  | S j => describe_data_ingestion_job JobId j
  end.

(** [n] status checks from the k-th describe call on, one minute apart. *)
Fixpoint checks (n k : nat) (now : Z) : list event :=
  match n with
  | O => []
  | S n' =>
      EvSleep 60 :: EvDescribe JobId
        :: EvStatusLine (now + 60) (describe_data_ingestion_job JobId k)
        :: checks n' (S k) (now + 60)
  end.

Lemma polling_loop_done fuel k now s :
  s ≠ "IN_PROGRESS" → polling_loop fuel k now s = ([], Some (now, s)).
Proof.
  intros Hne. destruct fuel; simpl;
    destruct (String.eqb_spec s "IN_PROGRESS"); done.
Qed.

Lemma polling_loop_run n : ∀ fuel k now s,
  (n ≤ fuel)%nat →
  (∀ i, (i < n)%nat →
        match i with O => s | S j => describe_data_ingestion_job JobId (k + j) end
        = "IN_PROGRESS") →
  match n with O => s | S j => describe_data_ingestion_job JobId (k + j) end
    ≠ "IN_PROGRESS" →
  polling_loop fuel k now s =
    (checks n k now,
     Some (now + 60 * Z.of_nat n,
           match n with O => s | S j => describe_data_ingestion_job JobId (k + j) end)).
Proof.
  induction n as [|n IH]; intros fuel k now s Hfuel Hbusy Hend.
  - rewrite polling_loop_done by done. simpl. do 3 f_equal. lia.
  - destruct fuel as [|fuel]; [lia|].
    pose proof (Hbusy O ltac:(lia)) as Hs. simpl in Hs. subst s. simpl.
    rewrite (IH fuel (S k) (now + 60) (describe_data_ingestion_job JobId k)).
    + cbn [checks]. f_equal. f_equal. f_equal; [lia|].
      destruct n as [|n]; [by rewrite Nat.add_0_r|]. f_equal. lia.
    + lia.
    + intros i Hi. specialize (Hbusy (S i) ltac:(lia)). simpl in Hbusy.
      destruct i as [|i]; [by rewrite Nat.add_0_r in Hbusy|].
      by replace (S k + i)%nat with (k + S i)%nat by lia.
    + destruct n as [|n]; [by rewrite Nat.add_0_r in Hend|].
      by replace (S k + n)%nat with (k + S n)%nat by lia.
Qed.

Lemma polling_loop_busy n : ∀ fuel k now s,
  (fuel < n)%nat →
  (∀ i, (i < n)%nat →
        match i with O => s | S j => describe_data_ingestion_job JobId (k + j) end
        = "IN_PROGRESS") →
  (polling_loop fuel k now s).2 = None.
Proof.
  induction n as [|n IH]; intros fuel k now s Hfuel Hbusy; [lia|].
  pose proof (Hbusy O ltac:(lia)) as Hs. simpl in Hs. subst s.
  destruct fuel as [|fuel]; simpl; [done|].
  specialize (IH fuel (S k) (now + 60) (describe_data_ingestion_job JobId k)).
  destruct (polling_loop fuel (S k) (now + 60) _) as [evs out]. simpl in *.
  apply IH; [lia|]. intros i Hi. specialize (Hbusy (S i) ltac:(lia)). simpl in Hbusy.
  destruct i as [|i]; [by rewrite Nat.add_0_r in Hbusy|].
  by replace (S (k + i))%nat with (k + S i)%nat by lia.
Qed.

Lemma polling_loop_never_starts fuel : ∀ k now s,
  Forall (fun ev => is_start ev = false) (polling_loop fuel k now s).1.
Proof.
  induction fuel as [|fuel IH]; intros k now s; simpl.
  - destruct (String.eqb s "IN_PROGRESS"); constructor.
  - destruct (String.eqb s "IN_PROGRESS"); [|constructor].
    specialize (IH (S k) (now + 60) (describe_data_ingestion_job JobId k)).
    destruct (polling_loop fuel (S k) (now + 60) _) as [evs out]. simpl in *.
    by repeat constructor.
Qed.

(** C9.  The job is started once.  While the status the cell holds is
    IN_PROGRESS it sleeps 60 seconds, asks for the status again and prints a
    line with the clock and the status; the first status line is printed
    before the loop, so every check has its line.  The loop ends with the
    first status that is SUCCESS or FAILED, after exactly [n] describe calls
    when that status is the [n]-th one, and not before; nothing in the cell
    starts a job again, whatever the final status is. *)
Theorem ingestion_polled_until_terminal n now :
  (∀ i, (i < n)%nat → status_at i = "IN_PROGRESS") →
  (status_at n = "SUCCESS" ∨ status_at n = "FAILED") →
  (∀ fuel, (n ≤ fuel)%nat →
     ingest_then_poll fuel now =
       (EvStartDataIngestionJob DATASET_NAME BUCKET PREFIX
          :: EvBanner "=====Polling Data Ingestion Status====="
          :: EvStatusLine now first_status
          :: checks n 0 now
          ++ [EvBanner "=====End of Polling Data Ingestion Status====="],
        Some (now + 60 * Z.of_nat n, status_at n)))
  ∧ (∀ fuel, (fuel < n)%nat → (ingest_then_poll fuel now).2 = None)
  ∧ (∀ fuel, Forall (fun ev => is_start ev = false) (polling_cell fuel now).1).
Proof.
  intros Hbusy Hend. repeat split.
  - intros fuel Hfuel. unfold ingest_then_poll, polling_cell.
    rewrite (polling_loop_run n fuel 0 now first_status Hfuel).
    + done.
    + intros i Hi. apply (Hbusy i Hi).
    + change (status_at n ≠ "IN_PROGRESS"). by destruct Hend as [-> | ->].
  - intros fuel Hfuel. unfold ingest_then_poll, polling_cell.
    pose proof (polling_loop_busy n fuel 0 now first_status Hfuel) as Hnone.
    destruct (polling_loop fuel 0 now first_status) as [evs out]. simpl in *.
    apply Hnone. intros i Hi. apply (Hbusy i Hi).
  - intros fuel. unfold polling_cell.
    pose proof (polling_loop_never_starts fuel 0 now first_status) as Hall.
    destruct (polling_loop fuel 0 now first_status) as [evs out]. simpl in *.
    repeat constructor. apply Forall_app. split; [done|].
    destruct out; repeat constructor.
Qed.

Lemma polling_loop_result fuel : ∀ k now s t r,
  (polling_loop fuel k now s).2 = Some (t, r) →
  ∃ n, (n ≤ fuel)%nat
       ∧ (∀ i, (i < n)%nat →
            match i with O => s | S j => describe_data_ingestion_job JobId (k + j) end
            = "IN_PROGRESS")
       ∧ match n with O => s | S j => describe_data_ingestion_job JobId (k + j) end = r
       ∧ r ≠ "IN_PROGRESS"
       ∧ t = now + 60 * Z.of_nat n.
Proof.
  induction fuel as [|fuel IH]; intros k now s t r H; simpl in H.
  - destruct (String.eqb_spec s "IN_PROGRESS") as [|Hne]; [done|].
    injection H as <- <-. exists O. repeat split; [lia|intros; lia|done|lia].
  - destruct (String.eqb_spec s "IN_PROGRESS") as [->|Hne].
    + specialize (IH (S k) (now + 60) (describe_data_ingestion_job JobId k) t r).
      destruct (polling_loop fuel (S k) (now + 60) _) as [evs out]. simpl in *.
      destruct (IH H) as (n & Hn & Hbusy & Hend & Hr & Ht).
      exists (S n). repeat split; [lia| | |done|lia].
      * intros [|i] Hi; [done|]. specialize (Hbusy i ltac:(lia)).
        destruct i as [|i]; [by rewrite Nat.add_0_r|].
        by replace (k + S i)%nat with (S k + i)%nat by lia.
      * destruct n as [|n]; [by rewrite Nat.add_0_r|].
        by replace (k + S n)%nat with (S k + n)%nat by lia.
    + injection H as <- <-. exists O. repeat split; [lia|intros; lia|done|lia].
Qed.

(** X14.  The polling cell ends exactly when some status it sees is not
    IN_PROGRESS, whatever that status is: SUCCESS, FAILED and any value the
    cell does not know are all final, and none raises an error.  It ends at
    the first such status, [n] checks and [60 n] seconds after it began, and
    what it prints is the same for every final status apart from the last
    status line. *)
Theorem polling_ends_on_any_other_status fuel now t s :
  (polling_cell fuel now).2 = Some (t, s)
  ↔ ∃ n, (n ≤ fuel)%nat
         ∧ (∀ i, (i < n)%nat → status_at i = "IN_PROGRESS")
         ∧ status_at n = s
         ∧ s ≠ "IN_PROGRESS"
         ∧ t = now + 60 * Z.of_nat n
         ∧ (polling_cell fuel now).1 =
             EvBanner "=====Polling Data Ingestion Status====="
               :: EvStatusLine now first_status
               :: checks n 0 now
               ++ [EvBanner "=====End of Polling Data Ingestion Status====="].
Proof.
  unfold polling_cell. split.
  - intros H.
    destruct (polling_loop fuel 0 now first_status) as [evs out] eqn:Hloop.
    simpl in H. subst out.
    destruct (polling_loop_result fuel 0 now first_status t s) as (n & Hn & Hbusy & Hend & Hs & Ht).
    { by rewrite Hloop. }
    exists n. repeat split; try done.
    rewrite (polling_loop_run n fuel 0 now first_status Hn Hbusy) in Hloop.
    + by injection Hloop as <- _.
    + by rewrite Hend.
  - intros (n & Hn & Hbusy & Hend & Hs & Ht & _).
    rewrite (polling_loop_run n fuel 0 now first_status Hn Hbusy).
    + simpl. f_equal. f_equal; [lia|done].
    + change (status_at n ≠ "IN_PROGRESS"). by rewrite Hend.
Qed.

End Polling.

(** A job that is in progress at the start and at the first two checks and
    has failed at the third. *)
Definition failing_job (JobId : string) (k : nat) : string :=
  if (k <? 2)%nat then "IN_PROGRESS" else "FAILED".

Lemma ingestion_polled_until_terminal_witness :
  (∀ fuel, (3 ≤ fuel)%nat →
     ingest_then_poll "dataset" "bucket" "training-data/" "job-1" "IN_PROGRESS"
       failing_job fuel 1000 =
       ([EvStartDataIngestionJob "dataset" "bucket" "training-data/";
         EvBanner "=====Polling Data Ingestion Status=====";
         EvStatusLine 1000 "IN_PROGRESS";
         EvSleep 60; EvDescribe "job-1"; EvStatusLine 1060 "IN_PROGRESS";
         EvSleep 60; EvDescribe "job-1"; EvStatusLine 1120 "IN_PROGRESS";
         EvSleep 60; EvDescribe "job-1"; EvStatusLine 1180 "FAILED";
         EvBanner "=====End of Polling Data Ingestion Status====="],
        Some (1180, "FAILED")))
  ∧ (∀ fuel, (fuel < 3)%nat →
       (ingest_then_poll "dataset" "bucket" "training-data/" "job-1" "IN_PROGRESS"
          failing_job fuel 1000).2 = None)
  ∧ (∀ fuel, Forall (fun ev => is_start ev = false)
               (polling_cell "job-1" "IN_PROGRESS" failing_job fuel 1000).1).
Proof.
  apply (ingestion_polled_until_terminal "dataset" "bucket" "training-data/"
           "job-1" "IN_PROGRESS" failing_job 3 1000).
  - intros i Hi. destruct i as [|[|[|i]]]; try reflexivity. lia.
  - right. reflexivity.
Defined.

End Ingestion.

(** ** Waiting for the first inference execution *)

Module Poller.

(** The arguments of [scheduler.list_inference_executions]. *)
Record filters : Type := {
  start_time : option Z;
  end_time : option Z;
  execution_status : option string
}.

(** [START_TIME_FOR_INFERENCE_EXECUTIONS], [END_TIME_FOR_INFERENCE_EXECUTIONS]
    and [EXECUTION_STATUS] of the notebook: all [None]. *)
Definition no_filters : filters :=
  {| start_time := None; end_time := None; execution_status := None |}.

Inductive event : Type :=
| EvList (f : filters)       (* scheduler.list_inference_executions(...) *)
| EvWaiting                  (* print('WAITING FOR THE FIRST INFERENCE EXECUTION') *)
| EvSleep (seconds : Z)      (* time.sleep(60) *)
| EvFirst.                   (* print('FIRST INFERENCE EXECUTED\n') *)

Section AwaitFirstResult.

(** What the k-th call of [scheduler.list_inference_executions] with the
    given arguments returns, counted from 0. *)
Variable list_inference_executions : filters -> nat -> list ExecutionSummary.

(** The [while len(execution_summaries) == 0] loop, entered with the empty
    list.  The loop has no bound of its own; [fuel] bounds the number of
    iterations the model follows, and the outcome is [None] when the loop is
    still running after them. *)
Fixpoint wait_loop (f : filters) (fuel k : nat)
  : list event * option (list ExecutionSummary) :=
  match fuel with
  | O => ([], None)
  | S fuel' =>
      let execution_summaries := list_inference_executions f k in
      if (length execution_summaries =? 0)%nat then
        let '(evs, out) := wait_loop f fuel' (S k) in
        (EvList f :: EvWaiting :: EvSleep 60 :: evs, out)
      else
        ([EvList f; EvFirst], Some execution_summaries)
  end.

(** The cell, with the notebook's arguments. *)
Definition wait_for_first_execution (fuel : nat)
  : list event * option (list ExecutionSummary) :=
  wait_loop no_filters fuel 0.

(** [n] empty polls. *)
Fixpoint waits (f : filters) (n : nat) : list event :=
  match n with
  | O => []
  | S n' => EvList f :: EvWaiting :: EvSleep 60 :: waits f n'
  end.

Lemma length_zero {A} (l : list A) : (length l =? 0)%nat = true ↔ l = [].
Proof. destruct l; simpl; split; intros; congruence. Qed.

Lemma wait_loop_empty f fuel : ∀ k,
  (∀ i, (i < fuel)%nat → list_inference_executions f (k + i) = []) →
  wait_loop f fuel k = (waits f fuel, None).
Proof.
  induction fuel as [|fuel IH]; intros k Hall; simpl; [done|].
  pose proof (Hall O ltac:(lia)) as H0. rewrite Nat.add_0_r in H0. rewrite H0. simpl.
  rewrite IH; [done|]. intros i Hi.
  replace (S k + i)%nat with (k + S i)%nat by lia. apply Hall. lia.
Qed.

Lemma wait_loop_exit f fuel : ∀ k r,
  (wait_loop f fuel k).2 = Some r →
  ∃ n, (n < fuel)%nat
       ∧ r = list_inference_executions f (k + n)
       ∧ r ≠ []
       ∧ (∀ i, (i < n)%nat → list_inference_executions f (k + i) = [])
       ∧ (wait_loop f fuel k).1 = waits f n ++ [EvList f; EvFirst].
Proof.
  induction fuel as [|fuel IH]; intros k r; simpl; [done|].
  destruct (length (list_inference_executions f k) =? 0)%nat eqn:Hlen.
  - specialize (IH (S k) r).
    destruct (wait_loop f fuel (S k)) as [evs out]. simpl in *. intros Hout.
    destruct (IH Hout) as (n & Hn & Hr & Hne & Hbefore & Htr).
    exists (S n). repeat split; try done.
    + lia.
    + by replace (k + S n)%nat with (S k + n)%nat by lia.
    + intros [|i] Hi.
      * rewrite Nat.add_0_r. by apply length_zero.
      * replace (k + S i)%nat with (S k + i)%nat by lia. apply Hbefore. lia.
    + by rewrite Htr.
  - simpl. intros [= <-]. exists O. rewrite Nat.add_0_r. repeat split; try done.
    + lia.
    + intros Hnil. by rewrite Hnil in Hlen.
    + intros i Hi. lia.
Qed.

Lemma wait_loop_step f fuel k :
  wait_loop f (S fuel) k =
    if (length (list_inference_executions f k) =? 0)%nat then
      (EvList f :: EvWaiting :: EvSleep 60 :: (wait_loop f fuel (S k)).1,
       (wait_loop f fuel (S k)).2)
    else ([EvList f; EvFirst], Some (list_inference_executions f k)).
Proof. simpl. by destruct (wait_loop f fuel (S k)). Qed.

Lemma wait_loop_finds f n : ∀ k,
  list_inference_executions f (k + n) ≠ [] →
  ∃ r, (wait_loop f (S n) k).2 = Some r.
Proof.
  induction n as [|n IH]; intros k Hne.
  - rewrite Nat.add_0_r in Hne. simpl.
    destruct (length (list_inference_executions f k) =? 0)%nat eqn:Hlen.
    + by apply length_zero in Hlen.
    + by eexists.
  - rewrite wait_loop_step.
    destruct (length (list_inference_executions f k) =? 0)%nat eqn:Hlen.
    + apply (IH (S k)). by replace (S k + n)%nat with (k + S n)%nat by lia.
    + by eexists.
Qed.

(** C5.  The loop calls [list_inference_executions] with the same arguments
    each time, prints and sleeps 60 seconds after every empty answer, and
    leaves with the first answer that is not empty.  It has no timeout: as
    long as the answers are empty it is still running, whatever the number
    of iterations.  So it terminates exactly when some call returns a
    sequence that is not empty, and the sequence it leaves with is not
    empty. *)
Theorem await_first_result f :
  ((∃ fuel r, (wait_loop f fuel 0).2 = Some r)
   ↔ (∃ n, list_inference_executions f n ≠ []))
  ∧ (∀ fuel r, (wait_loop f fuel 0).2 = Some r →
       r ≠ []
       ∧ ∃ n, (n < fuel)%nat
              ∧ r = list_inference_executions f n
              ∧ (∀ i, (i < n)%nat → list_inference_executions f i = [])
              ∧ (wait_loop f fuel 0).1 = waits f n ++ [EvList f; EvFirst])
  ∧ (∀ fuel, (∀ i, (i < fuel)%nat → list_inference_executions f i = []) →
       wait_loop f fuel 0 = (waits f fuel, None)).
Proof.
  repeat split.
  - intros (fuel & r & Hr).
    destruct (wait_loop_exit f fuel 0 r Hr) as (n & _ & Heq & Hne & _).
    exists n. simpl in Heq. by rewrite <- Heq.
  - intros (n & Hne). exists (S n). by apply wait_loop_finds.
  - by destruct (wait_loop_exit f fuel 0 r H) as (n & _ & _ & Hne & _).
  - destruct (wait_loop_exit f fuel 0 r H) as (n & Hn & Heq & _ & Hbefore & Htr).
    exists n. repeat split; done.
  - intros fuel Hall. by apply wait_loop_empty.
Qed.

End AwaitFirstResult.

(** *** Listing executions *)

(** The executions the service holds for each scheduler, by scheduler name,
    in the order and with the repetitions in which its pages give them. *)
Abbreviation remote_state := (string -> list ExecutionSummary).

(** The local state of a scheduler object: its name and the accumulated
    view of the executions seen so far, keyed by fire time
    ([scheduler.execution_summaries]). *)
Record scheduler : Type := {
  scheduler_name : string;
  execution_summaries : gmap Z ExecutionSummary
}.

(** Modelled from the spec: the optional filters of the query, which the
    remote service applies ([DataStartTimeAfter], [DataEndTimeBefore] and
    [Status] in the notebook's text): executions whose data window starts
    after [start_time], ends before [end_time], and whose status is
    [execution_status]. *)
Definition selected (f : filters) (e : ExecutionSummary) : bool :=
  match start_time f with
  | Some t => t <? DataStartTime e
  | None => true
  end
  && match end_time f with
     | Some t => DataEndTime e <? t
     | None => true
     end
  && match execution_status f with
     | Some st => String.eqb (Status e) st
     | None => true
     end.

Definition fire_time_le (e1 e2 : ExecutionSummary) : Prop :=
  ScheduledStartTime e1 <= ScheduledStartTime e2.

Definition fire_time_lt (e1 e2 : ExecutionSummary) : Prop :=
  ScheduledStartTime e1 < ScheduledStartTime e2.

#[global] Instance fire_time_le_dec e1 e2 : Decision (fire_time_le e1 e2).
Proof. unfold fire_time_le; apply _. Defined.

(** Modelled from the spec: summaries keyed by fire time, one per fire
    time (the accumulated view of section 4.4). *)
Definition keyed (es : list ExecutionSummary) : gmap Z ExecutionSummary :=
  list_to_map ((fun e => (ScheduledStartTime e, e)) <$> es).

(** Modelled from the spec: the summaries of a view, ordered by fire time
    ascending. *)
Definition summaries_of (view : gmap Z ExecutionSummary) : list ExecutionSummary :=
  merge_sort fire_time_le (map_to_list view).*2.

(** Modelled from the spec: the remote capability
    [ListExecutions(schedule_name, time_range?, status_filter?)] of section
    6, which answers with the executions of the schedule that the filters
    select, as its pages give them. *)
Definition ListExecutions (remote : remote_state) (name : string) (f : filters)
  : list ExecutionSummary :=
  filter (fun e => selected f e = true) (remote name).

(** A view is keyed by fire time. *)
Definition well_keyed (view : gmap Z ExecutionSummary) : Prop :=
  ∀ t e, view !! t = Some e → ScheduledStartTime e = t.

(** Modelled from the spec: [list_inference_executions] is a method of
    [LookoutEquipmentScheduler] in the helper module
    [lookout_equipment_utils], which is not among the sources; the notebook
    only calls it and reads [scheduler.execution_summaries].  Following
    section 4.4 of the specification, [list(schedule_name, time_range?,
    status_filter?)] asks the service for the executions of the schedule
    that the filters select and merges them into the locally accumulated
    view keyed by fire time, a summary just fetched replacing the one held
    for its fire time.  So that a repeated query does not return a summary
    twice, what it returns is read from that view: the summaries of the view
    that the filters select, one per fire time, ordered by fire time
    ascending. *)
Definition list_executions (remote : remote_state) (sch : scheduler) (f : filters)
  : scheduler * list ExecutionSummary :=
  let fetched := keyed (ListExecutions remote (scheduler_name sch) f) in
  let view := fetched ∪ execution_summaries sch in
  ({| scheduler_name := scheduler_name sch; execution_summaries := view |},
   summaries_of (filter (fun kv => selected f kv.2 = true) view)).

#[global] Instance fire_time_le_total : Total fire_time_le.
Proof. intros e1 e2. unfold fire_time_le. lia. Qed.

#[global] Instance fire_time_le_trans : Transitive fire_time_le.
Proof. intros e1 e2 e3. unfold fire_time_le. lia. Qed.

Lemma keyed_lookup es t e :
  keyed es !! t = Some e → ScheduledStartTime e = t ∧ e ∈ es.
Proof.
  unfold keyed. intros H. apply elem_of_list_to_map_2 in H.
  apply list_elem_of_fmap in H as (e' & [= -> ->] & Hin). done.
Qed.

Lemma fire_times_of_pairs (l : list (Z * ExecutionSummary)) :
  Forall (fun kv => ScheduledStartTime kv.2 = kv.1) l →
  ScheduledStartTime <$> l.*2 = l.*1.
Proof.
  induction 1 as [|[t e] l Hte _ IH]; csimpl in *; [done|]. by rewrite Hte, IH.
Qed.

Lemma fire_times_of_keyed es :
  ScheduledStartTime <$> (map_to_list (keyed es)).*2 = (map_to_list (keyed es)).*1.
Proof.
  apply fire_times_of_pairs, Forall_forall. intros [t e] Hin.
  apply elem_of_map_to_list in Hin. simpl. by apply keyed_lookup in Hin as [-> _].
Qed.

Lemma fire_time_sorted_strict l :
  StronglySorted fire_time_le l →
  NoDup (ScheduledStartTime <$> l) →
  StronglySorted fire_time_lt l.
Proof.
  induction 1 as [|e l Hs IH Hall]; intros Hnd; [constructor|].
  simpl in Hnd. apply NoDup_cons in Hnd as [Hnotin Hnd].
  constructor; [by apply IH|].
  apply Forall_forall. intros e' Hin.
  pose proof (proj1 (Forall_forall _ _) Hall e' Hin) as Hle.
  unfold fire_time_le, fire_time_lt in *.
  assert (ScheduledStartTime e ≠ ScheduledStartTime e'); [|lia].
  intros Heq. apply Hnotin. rewrite Heq. by apply list_elem_of_fmap_2.
Qed.

Lemma keyed_well_keyed es : well_keyed (keyed es).
Proof. intros t e H. by apply keyed_lookup in H as [? _]. Qed.

Lemma keyed_covers es e :
  e ∈ es → ∃ e', keyed es !! ScheduledStartTime e = Some e' ∧ e' ∈ es.
Proof.
  intros Hin.
  destruct (keyed es !! ScheduledStartTime e) as [e'|] eqn:Hlook.
  - exists e'. split; [done|]. by apply keyed_lookup in Hlook as [_ ?].
  - exfalso. unfold keyed in Hlook. apply not_elem_of_list_to_map_2 in Hlook.
    apply Hlook. rewrite <- list_fmap_compose.
    by apply (list_elem_of_fmap_2 (fst ∘ (fun e => (ScheduledStartTime e, e))) es e).
Qed.

Lemma union_well_keyed m1 m2 : well_keyed m1 → well_keyed m2 → well_keyed (m1 ∪ m2).
Proof.
  intros H1 H2 t e [H|[_ H]]%lookup_union_Some_raw; [by apply H1|by apply H2].
Qed.

Lemma filter_well_keyed (P : Z * ExecutionSummary → Prop) `{!∀ kv, Decision (P kv)} m :
  well_keyed m → well_keyed (filter P m).
Proof. intros Hkeyed t e [Hlook _]%map_lookup_filter_Some. by apply Hkeyed. Qed.

Lemma summaries_of_sorted view :
  well_keyed view → StronglySorted fire_time_lt (summaries_of view).
Proof.
  intros Hkeyed. unfold summaries_of. apply fire_time_sorted_strict.
  - apply StronglySorted_merge_sort; apply _.
  - rewrite merge_sort_Permutation, fire_times_of_pairs.
    + apply NoDup_fst_map_to_list.
    + apply Forall_forall. intros [t e] Hin. apply elem_of_map_to_list in Hin.
      by apply Hkeyed.
Qed.

Lemma elem_of_summaries_of view e :
  well_keyed view →
  e ∈ summaries_of view ↔ view !! ScheduledStartTime e = Some e.
Proof.
  intros Hkeyed. unfold summaries_of. rewrite merge_sort_Permutation. split.
  - intros ([t e'] & -> & Hin)%list_elem_of_fmap. simpl.
    apply elem_of_map_to_list in Hin. by rewrite (Hkeyed _ _ Hin).
  - intros Hlook. apply (list_elem_of_fmap_2 snd _ (ScheduledStartTime e, e)).
    by apply elem_of_map_to_list.
Qed.

(** C6.  Calling [list] twice with the same filters against the same remote
    state, the second call starting from the view the first one left,
    returns the same sequence both times and leaves the accumulated view as
    the first call left it.  The sequence is ordered by fire time, strictly
    ascending (no fire time twice); it holds exactly the summaries of the
    accumulated view that the filters select, and among them one of the
    service's own summaries for every fire time at which the service holds a
    selected execution. *)
Theorem list_twice_same_ordered_sequence (remote : remote_state) sch f :
  well_keyed (execution_summaries sch) →
  (list_executions remote (list_executions remote sch f).1 f).2
    = (list_executions remote sch f).2
  ∧ (list_executions remote (list_executions remote sch f).1 f).1
    = (list_executions remote sch f).1
  ∧ well_keyed (execution_summaries (list_executions remote sch f).1)
  ∧ StronglySorted fire_time_lt (list_executions remote sch f).2
  ∧ (∀ e, e ∈ (list_executions remote sch f).2
          ↔ selected f e = true
            ∧ execution_summaries (list_executions remote sch f).1
                !! ScheduledStartTime e = Some e)
  ∧ (∀ e, e ∈ remote (scheduler_name sch) → selected f e = true →
       ∃ e', e' ∈ (list_executions remote sch f).2
             ∧ ScheduledStartTime e' = ScheduledStartTime e
             ∧ e' ∈ remote (scheduler_name sch)).
Proof.
  intros Hkeyed. unfold list_executions. simpl.
  set (fetched := keyed (ListExecutions remote (scheduler_name sch) f)).
  assert (Hview : well_keyed (fetched ∪ execution_summaries sch)).
  { apply union_well_keyed; [apply keyed_well_keyed|done]. }
  assert (Hagain : fetched ∪ (fetched ∪ execution_summaries sch)
                   = fetched ∪ execution_summaries sch).
  { by rewrite (assoc_L (∪)), (idemp_L (∪)). }
  assert (Hmem : ∀ e,
            e ∈ summaries_of (filter (fun kv => selected f kv.2 = true)
                                (fetched ∪ execution_summaries sch))
            ↔ selected f e = true
              ∧ (fetched ∪ execution_summaries sch) !! ScheduledStartTime e = Some e).
  { intros e. rewrite elem_of_summaries_of by by apply filter_well_keyed.
    rewrite map_lookup_filter_Some. simpl. tauto. }
  split; [by rewrite Hagain|]. split; [by rewrite Hagain|]. split; [done|].
  split; [by apply summaries_of_sorted, filter_well_keyed|]. split; [done|].
  intros e Hin Hsel.
  destruct (keyed_covers (ListExecutions remote (scheduler_name sch) f) e)
    as (e' & Hlook & Hin').
  { by apply list_elem_of_filter. }
  apply list_elem_of_filter in Hin' as [Hsel' Hin'].
  pose proof (keyed_well_keyed _ _ _ Hlook) as Hfire.
  exists e'. split; [|done]. apply Hmem. split; [done|].
  rewrite Hfire. by apply lookup_union_Some_l.
Qed.

(** The service holds three executions, listed out of order and one of them
    twice; the local view is empty. *)
Definition executed (fired : Z) (status : string) : ExecutionSummary :=
  {| ScheduledStartTime := fired; DataStartTime := fired - 300; DataEndTime := fired;
     Status := status; CustomerResultObject := None |}.

Definition three_runs : remote_state :=
  fun name =>
    if String.eqb name "pump-scheduler"
    then [executed 1617826200 "SUCCESS"; executed 1617825900 "SUCCESS";
          executed 1617826500 "FAILED"; executed 1617825900 "SUCCESS"]
    else [].

Definition fresh_scheduler : scheduler :=
  {| scheduler_name := "pump-scheduler"; execution_summaries := ∅ |}.

Lemma list_twice_same_ordered_sequence_witness :
  (list_executions three_runs (list_executions three_runs fresh_scheduler no_filters).1
     no_filters).2
    = (list_executions three_runs fresh_scheduler no_filters).2
  ∧ (list_executions three_runs fresh_scheduler no_filters).2
    = [executed 1617825900 "SUCCESS"; executed 1617826200 "SUCCESS";
       executed 1617826500 "FAILED"].
Proof.
  split.
  - apply (list_twice_same_ordered_sequence three_runs fresh_scheduler no_filters).
    intros t e H. change ((∅ : gmap Z ExecutionSummary) !! t = Some e) in H.
    by rewrite lookup_empty in H.
  - vm_compute. reflexivity.
Defined.

End Poller.

(** ** The schedule lifecycle *)

Module Lifecycle.

Inductive ScheduleState : Type := UNCREATED | RUNNING | STOPPED | DELETED.

Inductive operation : Type := create | start | stop | delete.

Inductive error : Type := AlreadyExists | InvalidState | TransportFailure.

(** Modelled from the spec: the lifecycle controller is the class
    [LookoutEquipmentScheduler] of the helper module
    [lookout_equipment_utils], which is not among the sources; the notebook
    calls [scheduler.create()] and shows [stop], [start] and [delete] only as
    comments.  The transitions are those of section 4.2 of the
    specification: [create] is refused with [AlreadyExists] when a schedule
    exists for the model (it is running or stopped), [delete] from RUNNING is
    refused with [InvalidState], and the specification lists no transition
    other than the four below, so every other request is a precondition
    violation ([InvalidState]). *)
Definition transition (s : ScheduleState) (op : operation) : error + ScheduleState :=
  match op, s with
  | create, UNCREATED => inr RUNNING
  | create, RUNNING => inl AlreadyExists
  | create, STOPPED => inl AlreadyExists
  | stop, RUNNING => inr STOPPED
  | start, STOPPED => inr RUNNING
  | delete, STOPPED => inr DELETED
  | _, _ => inl InvalidState
  end.

(** Modelled from the spec: one request of the controller, a method of the
    same missing class.  The precondition is checked locally; the transition
    is a synchronous remote call, and when the call does not go through
    ([remote_ok] is false) the local state stays as it was. *)
Definition request (remote_ok : bool) (s : ScheduleState) (op : operation)
  : ScheduleState * option error :=
  match transition s op with
  | inl e => (s, Some e)
  | inr s' => if remote_ok then (s', None) else (s, Some TransportFailure)
  end.

(** Modelled from the spec: a sequence of requests to the controller, the
    remote side answering all of them. *)
Fixpoint requests (s : ScheduleState) (ops : list operation)
  : ScheduleState * list (option error) :=
  match ops with
  | [] => (s, [])
  | op :: rest =>
      let '(s', outcome) := request true s op in
      let '(s'', outcomes) := requests s' rest in
      (s'', outcome :: outcomes)
  end.

(** C2.  The transitions that succeed are exactly UNCREATED --create-->
    RUNNING, RUNNING --stop--> STOPPED, STOPPED --start--> RUNNING and
    STOPPED --delete--> DELETED.  [create] on an UNCREATED schedule yields
    RUNNING at once, a second [create] fails with [AlreadyExists], [delete]
    from RUNNING fails with [InvalidState] and leaves the schedule running,
    and [stop] followed by [delete] succeeds and yields DELETED. *)
Theorem lifecycle_state_machine :
  (∀ s op s',
     transition s op = inr s' ↔
       (s = UNCREATED ∧ op = create ∧ s' = RUNNING)
       ∨ (s = RUNNING ∧ op = stop ∧ s' = STOPPED)
       ∨ (s = STOPPED ∧ op = start ∧ s' = RUNNING)
       ∨ (s = STOPPED ∧ op = delete ∧ s' = DELETED))
  ∧ requests UNCREATED [create] = (RUNNING, [None])
  ∧ requests UNCREATED [create; create] = (RUNNING, [None; Some AlreadyExists])
  ∧ requests RUNNING [delete] = (RUNNING, [Some InvalidState])
  ∧ requests RUNNING [stop; delete] = (DELETED, [None; None]).
Proof.
  split; [|by repeat split].
  intros s op s'. split.
  - destruct s, op; simpl; intros [= <-]; tauto.
  - intros [(-> & -> & ->) | [(-> & -> & ->) | [(-> & -> & ->) | (-> & -> & ->)]]]; done.
Qed.

End Lifecycle.

Module Aggregator.

(** *** Values a results line can evaluate to *)

(** The Python values the model tracks.  A float literal is kept as
    [digits * 10 ^ exp10]; a dict keeps its insertion order. *)
Inductive pyval : Type :=
| PyNone
| PyBool (b : bool)
| PyInt (n : Z)
| PyFloat (digits : Z) (exp10 : Z)
| PyStr (s : string)
| PyList (l : list pyval)
| PyDict (d : list (string * pyval)).

(** [d.get(k)] on a dict (its keys are distinct). *)
Fixpoint dict_get (k : string) (d : list (string * pyval)) : option pyval :=
  match d with
  | [] => None
  | (k', v) :: d' => if String.eqb k k' then Some v else dict_get k d'
  end.

Definition dict_remove (k : string) (d : list (string * pyval)) : list (string * pyval) :=
  filter (fun kv => negb (String.eqb k kv.1) = true) d.

(** *** The world of the aggregation cell *)

(** Local files, by path, as their lines ([f.readlines()]). *)
Abbreviation files := (gmap string (list string)).

Inductive event : Type :=
| EvDot                                   (* print('.', end='') *)
| EvS3Copy (s3_fname local_fname : string). (* !aws s3 cp --quiet src dst *)

Record loop_state : Type := {
  results_json : list pyval;
  fs : files;
  trace : list event
}.

(** *** The results frame *)

(** An index label of the results frame: an instant (nanoseconds since the
    epoch) or pandas' not-a-time. *)
Inductive Timestamp : Type :=
| At (ns : Z)
| NaT.

Record Row : Type := {
  index : Timestamp;
  columns : list (string * pyval)
}.

Abbreviation DataFrame := (list Row).

(** Ascending order of the index with [NaT] last ([na_position='last']). *)
Definition ts_le (a b : Timestamp) : Prop :=
  match a, b with
  | At x, At y => x <= y
  | _, NaT => True
  | NaT, At _ => False
  end.

Definition ts_lt (a b : Timestamp) : Prop :=
  match a, b with
  | At x, At y => x < y
  | At _, NaT => True
  | NaT, _ => False
  end.

Definition row_le (r1 r2 : Row) : Prop := ts_le (index r1) (index r2).
Definition row_lt (r1 r2 : Row) : Prop := ts_lt (index r1) (index r2).

#[global] Instance ts_le_dec a b : Decision (ts_le a b).
Proof. destruct a, b; simpl; apply _. Defined.

#[global] Instance ts_lt_dec a b : Decision (ts_lt a b).
Proof. destruct a, b; simpl; apply _. Defined.

#[global] Instance row_le_dec r1 r2 : Decision (row_le r1 r2).
Proof. unfold row_le; apply _. Defined.

#[global] Instance row_lt_dec r1 r2 : Decision (row_lt r1 r2).
Proof. unfold row_lt; apply _. Defined.

#[global] Instance row_le_total : Total row_le.
Proof.
  intros [[x|] ?] [[y|] ?]; unfold row_le; simpl; try tauto. lia.
Qed.

#[global] Instance row_le_trans : Transitive row_le.
Proof.
  intros [[x|] ?] [[y|] ?] [[z|] ?]; unfold row_le; simpl; try tauto. lia.
Qed.

(** [results_df.sort_index()]: ascending by index label.  pandas does not
    promise an order among equal labels; the theorems below only rely on the
    result being sorted and being a permutation of the rows. *)
Definition sort_index (df : DataFrame) : DataFrame := merge_sort row_le df.

Lemma sort_index_perm df : sort_index df ≡ₚ df.
Proof. apply merge_sort_Permutation. Qed.

Lemma sort_index_length df : length (sort_index df) = length df.
Proof. apply Permutation_length, sort_index_perm. Qed.

Lemma sort_index_sorted df : StronglySorted row_le (sort_index df).
Proof. apply StronglySorted_merge_sort; apply _. Qed.

Lemma ts_le_lt a b : ts_le a b → a ≠ b → ts_lt a b.
Proof.
  destruct a as [x|], b as [y|]; simpl; try tauto.
  intros Hle Hne. assert (x ≠ y) by congruence. lia.
Qed.

(** Rows sorted by label and carrying pairwise distinct labels are strictly
    ascending: the frame is then a map from instants to records. *)
Lemma sorted_distinct_strict df :
  StronglySorted row_le df →
  NoDup (index <$> df) →
  StronglySorted row_lt df.
Proof.
  induction 1 as [|r df Hs IH Hall]; intros Hnd; [constructor|].
  simpl in Hnd. apply NoDup_cons in Hnd as [Hnotin Hnd].
  constructor; [by apply IH|].
  apply Forall_forall. intros r' Hin.
  apply ts_le_lt.
  - by apply (proj1 (Forall_forall _ _) Hall).
  - intros Heq. apply Hnotin. rewrite Heq. by apply list_elem_of_fmap_2.
Qed.

Lemma sort_index_strict df :
  NoDup (index <$> df) →
  StronglySorted row_lt (sort_index df).
Proof.
  intros Hnd. apply sorted_distinct_strict; [apply sort_index_sorted|].
  by rewrite (sort_index_perm df).
Qed.

Section Cell28.

(** [INFERENCE_DATA], the local directory of the inference data (it is built
    with [os.path.join] from [config.ASSET_ID], which the notebook imports,
    and does not end with a separator). *)
Variable INFERENCE_DATA : string.

(** The scheduler object of the helper module: its state, the method
    [list_inference_executions()] called without arguments (the new state and
    the list it returns) and the attribute [execution_summaries]. *)
Variable scheduler : Type.
Variable list_inference_executions : scheduler -> scheduler * list ExecutionSummary.
Variable execution_summaries : scheduler -> list ExecutionSummary.

(** The objects of the storage service, by their [s3://bucket/key] name.
    The cell only reads them. *)
Variable s3 : files.

(** Python's builtin [eval] on a line of a results file: the value of the
    expression, or [None] when evaluating it raises.  What the evaluation
    does besides returning a value is not tracked: in this section the lines
    are expressions whose evaluation neither depends on the names of the
    notebook nor changes them, as the records the service writes are.  The
    evaluation of arbitrary expressions in the notebook's namespace is the
    subject of the section [Namespace] below. *)
Variable eval : string -> option pyval.

(** [pd.to_datetime] on one cell of the timestamp column: [None] when it
    raises. *)
Variable to_datetime : pyval -> option Timestamp.

(** [!aws s3 cp --quiet $s3_fname $local_fname]: the object, when there is
    one, is written to the local path; a failed copy is silent and leaves
    the local files as they are.  The cell interpolates the two names
    without quotes: they are taken to be single shell words here (see
    [shell_word] below), as the names made from the notebook's prefix and
    the service's keys are; a name with a space or a shell metacharacter is
    outside this model. *)
Definition aws_s3_cp (s3_fname local_fname : string) (local : files) : files :=
  match s3 !! s3_fname with
  | Some lines => <[local_fname := lines]> local
  | None => local
  end.

(** [open(local_fname, 'r')] followed by [f.readlines()]. *)
Definition readlines (local : files) (local_fname : string) : result (list string) :=
  match local !! local_fname with
  | Some lines => mret lines
  | None => raise (FileNotFoundError local_fname)
  end.

(** [[eval(line) for line in lines]]: the first line whose evaluation raises
    ends the comprehension with that exception. *)
Fixpoint eval_lines (lines : list string) : result (list pyval) :=
  match lines with
  | [] => mret []
  | line :: rest =>
      match eval line with
      | None => raise (EvalError line)
      | Some v => vs ← eval_lines rest; mret (v :: vs)
      end
  end.

(** The body of the [for execution_summary in scheduler.execution_summaries]
    loop. *)
Definition loop_body (st : loop_state) (execution_summary : ExecutionSummary)
  : result loop_state :=
  let tr := trace st ++ [EvDot] in
  let status := Status execution_summary in
  if String.eqb status "SUCCESS" then
    match CustomerResultObject execution_summary with
    | None => raise (KeyError "CustomerResultObject")
    | Some obj =>
        let bucket := Bucket obj in
        let key := Key obj in
        current_timestamp ← index_from_end (split "/"%char key) 2;
        let local_fname :=
          INFERENCE_DATA +:+ "/output/centrifugal-pump_" +:+ current_timestamp +:+ ".jsonl" in
        let s3_fname := "s3://" +:+ bucket +:+ "/" +:+ key in
        let local := aws_s3_cp s3_fname local_fname (fs st) in
        lines ← readlines local local_fname;
        content ← eval_lines lines;
        mret {| results_json := results_json st ++ content;
                fs := local;
                trace := tr ++ [EvS3Copy s3_fname local_fname] |}
    end
  else
    mret {| results_json := results_json st; fs := fs st; trace := tr |}.

(** The [for] loop itself. *)
Fixpoint for_each (st : loop_state) (summaries : list ExecutionSummary)
  : result loop_state :=
  match summaries with
  | [] => mret st
  | execution_summary :: rest =>
      st' ← loop_body st execution_summary;
      for_each st' rest
  end.

(** [results_json = []] and the loop, from the local files [local]. *)
Definition collect (local : files) (summaries : list ExecutionSummary)
  : result loop_state :=
  for_each {| results_json := []; fs := local; trace := [] |} summaries.

(** [pd.DataFrame(results_json)] on a list of records (dicts).  Cells absent
    from a record stay absent here (pandas fills them with NaN), and the
    order of the columns is that of the fields within each row.  What pandas
    makes of a list that holds something else than records depends on the
    values and on its version and is not modelled: [DataFrameError] stands
    for that case, which the theorems leave aside. *)
Fixpoint records (vs : list pyval) : result (list (list (string * pyval))) :=
  match vs with
  | [] => mret []
  | PyDict d :: rest => ds ← records rest; mret (d :: ds)
  | _ :: _ => raise DataFrameError
  end.

Definition has_column (k : string) (rows : list (list (string * pyval))) : bool :=
  existsb (fun d => bool_decide (is_Some (dict_get k d))) rows.

(** One row of the frame after [pd.to_datetime] on its timestamp cell and
    [set_index('timestamp')]: the record's timestamp becomes the index label
    and leaves the columns; a record without one gets [NaT]. *)
Definition index_row (d : list (string * pyval)) : result Row :=
  match dict_get "timestamp" d with
  | None => mret {| index := NaT; columns := d |}
  | Some v =>
      match to_datetime v with
      | None => raise DatetimeError
      | Some t => mret {| index := t; columns := dict_remove "timestamp" d |}
      end
  end.

Fixpoint index_rows (rows : list (list (string * pyval))) : result DataFrame :=
  match rows with
  | [] => mret []
  | d :: rest =>
      r ← index_row d;
      rs ← index_rows rest;
      mret (r :: rs)
  end.

(** The four statements that build [results_df] from [results_json]. *)
Definition build_results_df (vs : list pyval) : result DataFrame :=
  rows ← records vs;
  if has_column "timestamp" rows then
    df ← index_rows rows;
    mret (sort_index df)
  else raise (KeyError "timestamp").

(** The aggregation cell from [results_json = []] on: the loop, then the
    frame.  It returns [results_df] together with the trace of what the loop
    printed and copied; the local files the loop leaves are those of
    [collect]. *)
Definition aggregate (local : files) (summaries : list ExecutionSummary)
  : result (DataFrame * list event) :=
  st ← collect local summaries;
  df ← build_results_df (results_json st);
  mret (df, trace st).

(** The whole cell: the summaries are refreshed (the list the method
    returns is dropped), then the summaries the scheduler holds are
    aggregated. *)
Definition cell_28 (sch : scheduler) (local : files)
  : scheduler * result (DataFrame * list event) :=
  let '(sch', _) := list_inference_executions sch in
  (sch', aggregate local (execution_summaries sch')).

(** The local files a pass that ends normally leaves behind.  For a pass
    that raises, the copies made before the exception are not tracked and
    the files it started from are given. *)
Definition files_left (local : files) (summaries : list ExecutionSummary)
  : files :=
  match collect local summaries with
  | inr st => fs st
  | inl _ => local
  end.

(** *** What the loop reads and does, stated from the store *)

(** The two names the loop body computes for a result object. *)
Definition s3_fname_of (obj : S3Object) : string :=
  "s3://" +:+ Bucket obj +:+ "/" +:+ Key obj.

Definition local_fname_of (current_timestamp : string) : string :=
  INFERENCE_DATA +:+ "/output/centrifugal-pump_" +:+ current_timestamp +:+ ".jsonl".

(** The values held by the result object of a summary: all the lines of the
    stored object evaluated, when the summary names an object whose key has a
    folder part, the store holds it and every line evaluates. *)
Definition fetch (e : ExecutionSummary) : option (list pyval) :=
  match CustomerResultObject e with
  | None => None
  | Some obj =>
      match index_from_end (split "/"%char (Key obj)) 2 with
      | inl _ => None
      | inr _ =>
          match s3 !! s3_fname_of obj with
          | None => None
          | Some lines =>
              match eval_lines lines with
              | inl _ => None
              | inr content => Some content
              end
          end
      end
  end.

(** The copy the loop body issues for a summary. *)
Definition copy_of (e : ExecutionSummary) : list event :=
  match CustomerResultObject e with
  | None => []
  | Some obj =>
      match index_from_end (split "/"%char (Key obj)) 2 with
      | inl _ => []
      | inr current_timestamp =>
          [EvS3Copy (s3_fname_of obj) (local_fname_of current_timestamp)]
      end
  end.

(** What a whole pass of the loop prints and copies. *)
Definition loop_events (es : list ExecutionSummary) : list event :=
  flat_map (fun e => EvDot :: (if String.eqb (Status e) "SUCCESS" then copy_of e else [])) es.

Definition succeeded (es : list ExecutionSummary) : list ExecutionSummary :=
  filter (fun e => Status e = "SUCCESS") es.

(** The instant a value carries when it is a record with a readable
    timestamp cell. *)
Definition timestamp_of (v : pyval) : option Z :=
  match v with
  | PyDict d =>
      match dict_get "timestamp" d with
      | Some c =>
          match to_datetime c with
          | Some (At t) => Some t
          | _ => None
          end
      | None => None
      end
  | _ => None
  end.

(** The row of the frame such a record becomes. *)
Definition row_of (v : pyval) (t : Z) : Row :=
  {| index := At t;
     columns := match v with
                | PyDict d => dict_remove "timestamp" d
                | _ => []
                end |}.

(** The local files after the copy of one object. *)
Definition fs_after (local : files) (e : ExecutionSummary) : files :=
  match CustomerResultObject e with
  | None => local
  | Some obj =>
      match index_from_end (split "/"%char (Key obj)) 2 with
      | inl _ => local
      | inr current_timestamp =>
          aws_s3_cp (s3_fname_of obj) (local_fname_of current_timestamp) local
      end
  end.

(** *** The loop *)

Lemma loop_body_skip st e :
  Status e ≠ "SUCCESS" →
  loop_body st e =
    inr {| results_json := results_json st; fs := fs st; trace := trace st ++ [EvDot] |}.
Proof.
  intros Hne. unfold loop_body.
  destruct (String.eqb_spec (Status e) "SUCCESS") as [Heq | _]; [by destruct Hne | done].
Qed.

Lemma loop_body_success st e content :
  Status e = "SUCCESS" →
  fetch e = Some content →
  loop_body st e =
    inr {| results_json := results_json st ++ content;
           fs := fs_after (fs st) e;
           trace := trace st ++ EvDot :: copy_of e |}.
Proof.
  intros Hs Hf. unfold loop_body, fetch, fs_after, copy_of in *.
  rewrite Hs. simpl.
  destruct (CustomerResultObject e) as [obj|]; [|done].
  destruct (index_from_end _ 2) as [|ts]; [done|]. simpl.
  fold (s3_fname_of obj) (local_fname_of ts).
  unfold aws_s3_cp, readlines.
  destruct (s3 !! s3_fname_of obj) as [lines|] eqn:Hobj; [|done].
  rewrite lookup_insert_eq. simpl.
  destruct (eval_lines lines) as [|c]; [done|].
  simplify_eq. simpl. by rewrite <- app_assoc.
Qed.

(** With every result object of a SUCCESS summary in the store and
    readable, the loop ends normally, whatever the local files were: it
    appends the objects' values in the order of the summaries, one object
    after the other, and copies each of them. *)
Lemma for_each_contents es : ∀ st contents,
  mapM fetch (succeeded es) = Some contents →
  ∃ st', for_each st es = inr st'
         ∧ results_json st' = results_json st ++ concat contents
         ∧ trace st' = trace st ++ loop_events es.
Proof.
  induction es as [|e es IH]; intros st contents Hm.
  - cbv in Hm. simplify_eq. exists st. simpl. by rewrite !app_nil_r.
  - unfold succeeded in Hm. rewrite filter_cons in Hm.
    simpl. destruct (decide (Status e = "SUCCESS")) as [Hs|Hs].
    + apply mapM_Some in Hm. inversion Hm as [|? c ? cs Hf Hrest]; subst.
      apply mapM_Some in Hrest.
      rewrite (loop_body_success st e c Hs Hf). simpl.
      destruct (IH {| results_json := results_json st ++ c;
                      fs := fs_after (fs st) e;
                      trace := trace st ++ EvDot :: copy_of e |} cs Hrest)
        as (st' & Hrun & Hres & Htr).
      exists st'. split; [done|]. simpl in *. rewrite Hs. simpl.
      rewrite Hres, Htr. by rewrite <- !app_assoc.
    + rewrite (loop_body_skip st e Hs). simpl.
      destruct (IH {| results_json := results_json st; fs := fs st;
                      trace := trace st ++ [EvDot] |} contents Hm)
        as (st' & Hrun & Hres & Htr).
      exists st'. split; [done|]. simpl in *.
      destruct (String.eqb_spec (Status e) "SUCCESS") as [Heq|_]; [done|].
      rewrite Hres, Htr. by rewrite <- !app_assoc.
Qed.

Lemma collect_contents local es contents :
  mapM fetch (succeeded es) = Some contents →
  ∃ st, collect local es = inr st
        ∧ results_json st = concat contents
        ∧ trace st = loop_events es.
Proof.
  intros Hm. unfold collect.
  destruct (for_each_contents es {| results_json := []; fs := local; trace := [] |}
              contents Hm) as (st & Hrun & Hres & Htr).
  exists st. by repeat split.
Qed.

(** *** The frame *)

Lemma timestamp_of_row v t :
  timestamp_of v = Some t →
  ∃ d, v = PyDict d ∧ is_Some (dict_get "timestamp" d) ∧ index_row d = inr (row_of v t).
Proof.
  unfold timestamp_of, index_row, row_of. intros H.
  destruct v as [| | | | |?|d]; try done.
  exists d. split; [done|].
  destruct (dict_get "timestamp" d) as [c|]; [|done].
  split; [by eexists|].
  destruct (to_datetime c) as [[ns|]|]; by simplify_eq.
Qed.

Lemma records_of_timestamps vs ts :
  Forall2 (fun v t => timestamp_of v = Some t) vs ts →
  ∃ ds, records vs = inr ds
        ∧ index_rows ds = inr (zip_with row_of vs ts)
        ∧ (vs ≠ [] → has_column "timestamp" ds = true).
Proof.
  induction 1 as [|v t vs ts Hv _ (ds & Hrec & Hidx & Hcol)].
  - exists []. by repeat split.
  - destruct (timestamp_of_row v t Hv) as (d & -> & Hkey & Hrow).
    exists (d :: ds). simpl. rewrite Hrec. simpl. rewrite Hrow, Hidx. simpl.
    repeat split; try done. intros _.
    by rewrite bool_decide_true.
Qed.

(** When every value is a record with a readable timestamp and there is at
    least one, the frame is the sorted list of their rows. *)
Lemma build_results_df_records vs ts :
  mapM timestamp_of vs = Some ts →
  vs ≠ [] →
  build_results_df vs = inr (sort_index (zip_with row_of vs ts)).
Proof.
  intros Hm Hne. apply mapM_Some in Hm.
  destruct (records_of_timestamps vs ts Hm) as (ds & Hrec & Hidx & Hcol).
  unfold build_results_df. rewrite Hrec. simpl. rewrite (Hcol Hne), Hidx. done.
Qed.

(** A frame is never built from an empty [results_json]: the empty frame
    has no timestamp column. *)
Lemma build_results_df_empty :
  build_results_df [] = inl (KeyError "timestamp").
Proof. reflexivity. Qed.

Lemma index_zip_rows vs ts :
  length vs = length ts →
  index <$> zip_with row_of vs ts = At <$> ts.
Proof.
  revert ts. induction vs as [|v vs IH]; intros [|t ts] Hlen; simpl in *; try done.
  f_equal. apply IH. lia.
Qed.

Lemma for_each_app pre post : ∀ st,
  for_each st (pre ++ post) = (st' ← for_each st pre; for_each st' post).
Proof.
  induction pre as [|e pre IH]; intros st; simpl; [done|].
  destruct (loop_body st e) as [err|st1]; simpl; [done|]. apply IH.
Qed.

Lemma eval_lines_raises lines :
  (∃ line, line ∈ lines ∧ eval line = None) →
  ∃ bad, bad ∈ lines ∧ eval bad = None ∧ eval_lines lines = inl (EvalError bad).
Proof.
  induction lines as [|l lines IH]; intros (line & Hin & Hev).
  - by apply elem_of_nil in Hin.
  - simpl. destruct (eval l) as [v|] eqn:Hl.
    + apply elem_of_cons in Hin as [->|Hin]; [congruence|].
      destruct IH as (bad & Hbad & Hnone & Hrun); [by exists line|].
      exists bad. rewrite Hrun. repeat split; [by right|done].
    + exists l. repeat split; [by left|done].
Qed.

Lemma two_executions_contents local e1 e2 recs1 recs2 :
  Status e1 = "SUCCESS" → Status e2 = "SUCCESS" →
  fetch e1 = Some recs1 → fetch e2 = Some recs2 →
  ∃ st, collect local [e1; e2] = inr st
        ∧ results_json st = recs1 ++ recs2
        ∧ trace st = loop_events [e1; e2].
Proof.
  intros S1 S2 F1 F2.
  destruct (collect_contents local [e1; e2] [recs1; recs2]) as (st & Hrun & Hres & Htr).
  - unfold succeeded. rewrite !filter_cons, !decide_True by done.
    simpl. by rewrite F1, F2.
  - exists st. simpl in Hres. rewrite app_nil_r in Hres. done.
Qed.

Lemma timestamps_app recs1 recs2 ts1 ts2 :
  mapM timestamp_of recs1 = Some ts1 →
  mapM timestamp_of recs2 = Some ts2 →
  mapM timestamp_of (recs1 ++ recs2) = Some (ts1 ++ ts2).
Proof.
  rewrite !mapM_Some. apply Forall2_app.
Qed.

(** The frame two readable executions produce, whatever their timestamps. *)
Lemma two_executions_frame local e1 e2 recs1 recs2 ts1 ts2 :
  Status e1 = "SUCCESS" → Status e2 = "SUCCESS" →
  fetch e1 = Some recs1 → fetch e2 = Some recs2 →
  mapM timestamp_of recs1 = Some ts1 →
  mapM timestamp_of recs2 = Some ts2 →
  recs1 ++ recs2 ≠ [] →
  aggregate local [e1; e2] =
    inr (sort_index (zip_with row_of (recs1 ++ recs2) (ts1 ++ ts2)),
         loop_events [e1; e2]).
Proof.
  intros S1 S2 F1 F2 T1 T2 Hne.
  destruct (two_executions_contents local e1 e2 recs1 recs2 S1 S2 F1 F2)
    as (st & Hrun & Hres & Htr).
  unfold aggregate. rewrite Hrun. simpl. rewrite Hres.
  rewrite (build_results_df_records _ (ts1 ++ ts2)); [|by apply timestamps_app|done].
  simpl. by rewrite Htr.
Qed.

(** C4. Two executions that completed with SUCCESS, whose result objects are
    in the store and hold records with readable, pairwise distinct
    timestamps (at least one record between them), aggregated from an empty
    [results_json]: the cell returns a frame with as many rows as the two
    objects have records, the rows are exactly the records' rows, and they
    are strictly ascending by timestamp. *)
Theorem aggregate_disjoint_executions local e1 e2 recs1 recs2 ts1 ts2 :
  Status e1 = "SUCCESS" → Status e2 = "SUCCESS" →
  fetch e1 = Some recs1 → fetch e2 = Some recs2 →
  mapM timestamp_of recs1 = Some ts1 →
  mapM timestamp_of recs2 = Some ts2 →
  NoDup (ts1 ++ ts2) →
  recs1 ++ recs2 ≠ [] →
  ∃ df tr,
    aggregate local [e1; e2] = inr (df, tr)
    ∧ length df = (length recs1 + length recs2)%nat
    ∧ StronglySorted row_lt df
    ∧ df ≡ₚ zip_with row_of (recs1 ++ recs2) (ts1 ++ ts2).
Proof.
  intros S1 S2 F1 F2 T1 T2 Hnd Hne.
  pose proof (two_executions_frame local e1 e2 recs1 recs2 ts1 ts2
                S1 S2 F1 F2 T1 T2 Hne) as Hagg.
  assert (Hlen : length (recs1 ++ recs2) = length (ts1 ++ ts2)).
  { apply (length_mapM timestamp_of). by apply timestamps_app. }
  eexists _, _. split; [exact Hagg|]. repeat split.
  - rewrite sort_index_length, length_zip_with, <- Hlen, Nat.min_id. apply length_app.
  - apply sort_index_strict. rewrite index_zip_rows by done.
    apply NoDup_fmap_2; [|done]. by intros ?? [=].
  - apply sort_index_perm.
Qed.

Lemma zip_rows_app recs1 recs2 ts1 ts2 :
  mapM timestamp_of recs1 = Some ts1 →
  zip_with row_of (recs1 ++ recs2) (ts1 ++ ts2) =
    zip_with row_of recs1 ts1 ++ zip_with row_of recs2 ts2.
Proof.
  intros T1. apply zip_with_app. by apply (length_mapM timestamp_of).
Qed.

Lemma label_of_zip_rows recs ts t :
  mapM timestamp_of recs = Some ts →
  t ∈ ts →
  At t ∈ index <$> zip_with row_of recs ts.
Proof.
  intros T Hin. rewrite index_zip_rows by by apply (length_mapM timestamp_of).
  by apply list_elem_of_fmap_2.
Qed.

(** C3, as the code has it.  Two executions that completed with SUCCESS and
    report a common timestamp [t] are aggregated without any error: the cell
    returns a frame that holds every row of both objects (so the label [t]
    is carried by a row of the first object and by a row of the second:
    neither record overwrites the other, neither is rejected), sorted
    ascending by timestamp. *)
Theorem aggregate_colliding_executions local e1 e2 recs1 recs2 ts1 ts2 t :
  Status e1 = "SUCCESS" → Status e2 = "SUCCESS" →
  fetch e1 = Some recs1 → fetch e2 = Some recs2 →
  mapM timestamp_of recs1 = Some ts1 →
  mapM timestamp_of recs2 = Some ts2 →
  t ∈ ts1 → t ∈ ts2 →
  ∃ df tr,
    aggregate local [e1; e2] = inr (df, tr)
    ∧ df ≡ₚ zip_with row_of recs1 ts1 ++ zip_with row_of recs2 ts2
    ∧ At t ∈ index <$> zip_with row_of recs1 ts1
    ∧ At t ∈ index <$> zip_with row_of recs2 ts2
    ∧ StronglySorted row_le df.
Proof.
  intros S1 S2 F1 F2 T1 T2 H1 H2.
  assert (Hne : recs1 ++ recs2 ≠ []).
  { apply (length_mapM timestamp_of) in T1. destruct recs1, ts1; simpl in *; try done.
    by apply elem_of_nil in H1. }
  pose proof (two_executions_frame local e1 e2 recs1 recs2 ts1 ts2
                S1 S2 F1 F2 T1 T2 Hne) as Hagg.
  eexists _, _. split; [exact Hagg|]. repeat split.
  - rewrite sort_index_perm. by rewrite zip_rows_app.
  - by apply label_of_zip_rows.
  - by apply label_of_zip_rows.
  - apply sort_index_sorted.
Qed.

(** C7, as the code has it.  When the result object of a SUCCESS execution
    holds a line whose evaluation raises, the exception leaves the loop and
    the cell: the aggregation as a whole ends with that exception and no
    frame is built, whatever the executions before it contributed and
    whatever the executions after it hold. *)
Theorem unreadable_line_aborts_aggregation
    local pre e post before obj current_timestamp lines line :
  results_json <$> collect local pre = inr before →
  Status e = "SUCCESS" →
  CustomerResultObject e = Some obj →
  index_from_end (split "/"%char (Key obj)) 2 = inr current_timestamp →
  s3 !! s3_fname_of obj = Some lines →
  line ∈ lines →
  eval line = None →
  ∃ bad, bad ∈ lines ∧ eval bad = None
         ∧ aggregate local (pre ++ e :: post) = inl (EvalError bad).
Proof.
  intros Hpre Hs Hobj Hts Hstore Hin Hev.
  destruct (eval_lines_raises lines) as (bad & Hbad & Hnone & Hrun); [by exists line|].
  exists bad. repeat split; try done.
  unfold aggregate, collect in *. rewrite for_each_app.
  destruct (for_each _ pre) as [err|st]; [done|]. simpl.
  unfold loop_body. rewrite Hs, Hobj. simpl. rewrite Hts. simpl.
  fold (s3_fname_of obj) (local_fname_of current_timestamp).
  unfold aws_s3_cp, readlines. rewrite Hstore, lookup_insert_eq. simpl.
  by rewrite Hrun.
Qed.

Lemma copy_of_fetched e content :
  fetch e = Some content → ∃ c, copy_of e = [c].
Proof.
  unfold fetch, copy_of. destruct (CustomerResultObject e); [|done].
  destruct (index_from_end _ 2); [done|]. by eexists.
Qed.

Lemma copy_in_loop_events es e c :
  e ∈ succeeded es → copy_of e = [c] → c ∈ loop_events es.
Proof.
  unfold succeeded, loop_events. intros Hin Hc.
  apply list_elem_of_filter in Hin as [Hs Hin].
  apply list_elem_of_In, in_flat_map. exists e. split; [by apply list_elem_of_In|].
  rewrite Hs, Hc. simpl. auto.
Qed.

(** C8, as the code has it.  A pass of the aggregation cell refreshes the
    summaries, starts from an empty [results_json] and copies and parses the
    result object of every SUCCESS summary the scheduler holds, whether or
    not an earlier pass did so already: the frame is rebuilt, not appended
    to.  With the objects of the summaries in the store, a pass that returned
    [df] is followed, when the refresh brings no change to the summaries, by
    a pass that issues the same copies again and returns the same [df],
    whatever local files it starts from; [df] is built from the objects'
    values taken once per summary of the list. *)
Theorem repeated_pass_rebuilds sch local contents df tr :
  let sch1 := (list_inference_executions sch).1 in
  let sch2 := (list_inference_executions sch1).1 in
  let es := execution_summaries sch1 in
  execution_summaries sch2 = es →
  mapM fetch (succeeded es) = Some contents →
  (cell_28 sch local).2 = inr (df, tr) →
  build_results_df (concat contents) = inr df
  ∧ tr = loop_events es
  ∧ (∀ e, e ∈ succeeded es → ∃ c, copy_of e = [c] ∧ c ∈ tr)
  ∧ (cell_28 sch1 (files_left local es)).2 = inr (df, tr)
  ∧ ∀ local', (cell_28 sch1 local').2 = inr (df, tr).
Proof.
  intros sch1 sch2 es Hsame Hm Hagg.
  assert (Hcell : ∀ l, (cell_28 sch l).2 = aggregate l es).
  { intros l. unfold cell_28, es, sch1. by destruct (list_inference_executions sch). }
  assert (Hcell1 : ∀ l, (cell_28 sch1 l).2 = aggregate l es).
  { intros l. unfold cell_28. rewrite <- Hsame. unfold sch2.
    by destruct (list_inference_executions sch1). }
  rewrite Hcell in Hagg.
  destruct (collect_contents local es contents Hm) as (st & Hrun & Hres & Htr).
  unfold aggregate in Hagg. rewrite Hrun in Hagg. simpl in Hagg. rewrite Hres in Hagg.
  destruct (build_results_df (concat contents)) as [err|df'] eqn:Hdf; simpl in Hagg; [done|].
  inversion Hagg; subst; clear Hagg.
  assert (Hany : ∀ l, aggregate l es = inr (df, trace st)).
  { intros l.
    destruct (collect_contents l es contents Hm) as (st2 & Hrun2 & Hres2 & Htr2).
    unfold aggregate. rewrite Hrun2. simpl. rewrite Hres2, Hdf. simpl.
    by rewrite Htr2, Htr. }
  split; [done|]. split; [done|]. split; [|split].
  - intros e He.
    assert (Hf : ∃ c, fetch e = Some c).
    { apply mapM_Some in Hm. apply list_elem_of_lookup in He as [i Hi].
      destruct (Forall2_lookup_l _ _ _ _ _ Hm Hi) as (c & _ & Hc). by exists c. }
    destruct Hf as [c Hf]. destruct (copy_of_fetched e c Hf) as [ev Hev].
    exists ev. split; [done|]. rewrite Htr. by apply copy_in_loop_events with e.
  - by rewrite Hcell1.
  - intros l. by rewrite Hcell1.
Qed.

(** *** Further properties of the aggregation cell *)

(** A key below some folders: [d1/d2/.../rest]. *)
Fixpoint under (dirs : list string) (rest : string) : string :=
  match dirs with
  | [] => rest
  | d :: ds => d +:+ "/" +:+ under ds rest
  end.

Definition is_dot (ev : event) : bool :=
  match ev with
  | EvDot => true
  | EvS3Copy _ _ => false
  end.

(** The row of a record with a readable timestamp. *)
Definition row (v : pyval) : Row :=
  row_of v (default 0 (timestamp_of v)).

Lemma loop_body_same_frame st st' e :
  results_json st = results_json st' → fs st = fs st' →
  match loop_body st e, loop_body st' e with
  | inr a, inr b => results_json a = results_json b ∧ fs a = fs b
  | inl x, inl y => x = y
  | _, _ => False
  end.
Proof.
  intros Hr Hf. unfold loop_body. rewrite Hr, Hf.
  destruct (String.eqb (Status e) "SUCCESS"); simpl; [|done].
  destruct (CustomerResultObject e) as [obj|]; simpl; [|done].
  destruct (index_from_end _ 2) as [err|ts]; simpl; [done|].
  destruct (readlines _ _) as [err|lines]; simpl; [done|].
  destruct (eval_lines lines) as [err|content]; simpl; done.
Qed.

Lemma for_each_succeeded es : ∀ st st',
  results_json st = results_json st' → fs st = fs st' →
  match for_each st es, for_each st' (succeeded es) with
  | inr a, inr b => results_json a = results_json b ∧ fs a = fs b
  | inl x, inl y => x = y
  | _, _ => False
  end.
Proof.
  induction es as [|e es IH]; intros st st' Hr Hf; [done|].
  unfold succeeded. rewrite filter_cons. fold (succeeded es).
  destruct (decide (Status e = "SUCCESS")) as [Hs|Hs]; simpl.
  - pose proof (loop_body_same_frame st st' e Hr Hf) as Hstep.
    destruct (loop_body st e) as [x|a], (loop_body st' e) as [y|b]; simpl; try done.
    destruct Hstep as [Hr' Hf']. by apply IH.
  - rewrite (loop_body_skip st e Hs). simpl. by apply IH.
Qed.

Lemma for_each_all_skipped es : ∀ st,
  (∀ e, e ∈ es → Status e ≠ "SUCCESS") →
  for_each st es =
    inr {| results_json := results_json st; fs := fs st;
           trace := trace st ++ replicate (length es) EvDot |}.
Proof.
  induction es as [|e es IH]; intros st Hall; simpl.
  - rewrite app_nil_r. by destruct st.
  - rewrite (loop_body_skip st e) by (apply Hall; by left). simpl.
    rewrite IH by (intros e' He'; apply Hall; by right). simpl.
    by rewrite <- app_assoc.
Qed.

Lemma records_shape vs ds :
  records vs = inr ds → vs = PyDict <$> ds.
Proof.
  revert ds. induction vs as [|v vs IH]; intros ds H; simpl in H.
  - by inversion H.
  - destruct v as [| | | | | |d]; try done.
    destruct (records vs) as [err|ds'] eqn:Hrec; simpl in H; [done|].
    inversion H; subst. simpl. by rewrite (IH ds').
Qed.

Lemma index_rows_length ds : ∀ rows,
  index_rows ds = inr rows → length rows = length ds.
Proof.
  induction ds as [|d ds IH]; intros rows H; simpl in H.
  - by inversion H.
  - destruct (index_row d) as [err|r]; simpl in H; [done|].
    destruct (index_rows ds) as [err|rs]; simpl in H; [done|].
    inversion H; subst. simpl. by rewrite (IH rs).
Qed.

Lemma build_results_df_shape vs df :
  build_results_df vs = inr df →
  length df = length vs
  ∧ StronglySorted row_le df
  ∧ Forall (fun v => ∃ d, v = PyDict d) vs
  ∧ vs ≠ [].
Proof.
  unfold build_results_df. intros H.
  destruct (records vs) as [err|ds] eqn:Hrec; simpl in H; [done|].
  destruct (has_column "timestamp" ds) eqn:Hcol; [|done].
  destruct (index_rows ds) as [err|rows] eqn:Hrows; simpl in H; [done|].
  inversion H; subst. apply records_shape in Hrec as ->.
  repeat split.
  - rewrite sort_index_length, length_fmap. by apply index_rows_length.
  - apply sort_index_sorted.
  - apply Forall_fmap, Forall_true. intros d. by exists d.
  - by destruct ds.
Qed.

Lemma eval_lines_error lines err :
  eval_lines lines = inl err → ∃ line, err = EvalError line.
Proof.
  revert err. induction lines as [|l lines IH]; intros err H; simpl in H; [done|].
  destruct (eval l); [|inversion H; by eexists].
  destruct (eval_lines lines) as [err'|vs]; simpl in H; [|done].
  inversion H; subst. by apply IH.
Qed.

Lemma split_under dirs folder file :
  occurs "/" folder = false → occurs "/" file = false →
  ∃ l, split "/" (under dirs (folder +:+ "/" +:+ file)) = l ++ [folder; file].
Proof.
  intros Hfolder Hfile. induction dirs as [|d dirs [l IH]]; simpl.
  - exists []. change (folder +:+ "/" +:+ file) with (folder +:+ String "/" file).
    by rewrite split_app, !split_without_separator.
  - exists (split "/" d ++ l).
    change (d +:+ "/" +:+ under dirs (folder +:+ "/" +:+ file))
      with (d +:+ String "/" (under dirs (folder +:+ "/" +:+ file))).
    by rewrite split_app, IH, app_assoc.
Qed.

Lemma mapM_permutation {A B} (f : A → option B) (l l' : list A) :
  l ≡ₚ l' → ∀ k, mapM f l = Some k → ∃ k', mapM f l' = Some k' ∧ k ≡ₚ k'.
Proof.
  induction 1 as [|x l l' _ IH|x y l|l l' l'' _ IH1 _ IH2]; intros k Hk.
  - by exists k.
  - apply mapM_Some in Hk. inversion Hk as [|? b ? k0 Hx Hrest]; subst.
    apply mapM_Some in Hrest. destruct (IH k0 Hrest) as (k' & Hk' & Hperm).
    exists (b :: k'). split; [|by constructor].
    apply mapM_Some. constructor; [done|by apply mapM_Some].
  - apply mapM_Some in Hk. inversion Hk as [|? b ? k0 Hy Hrest]; subst.
    inversion Hrest as [|? c ? k1 Hx Hrest']; subst.
    exists (c :: b :: k1). split; [|by constructor].
    apply mapM_Some. by repeat constructor.
  - destruct (IH1 k Hk) as (k1 & Hk1 & Hp1). destruct (IH2 k1 Hk1) as (k2 & Hk2 & Hp2).
    exists k2. split; [done|by etrans].
Qed.

Lemma concat_permutation {A} (l l' : list (list A)) :
  l ≡ₚ l' → concat l ≡ₚ concat l'.
Proof.
  induction 1 as [|x l l' _ IH|x y l|l l' l'' _ IH1 _ IH2]; simpl.
  - done.
  - by rewrite IH.
  - rewrite !app_assoc. by rewrite (Permutation_app_comm y x).
  - by etrans.
Qed.

Lemma zip_rows_fmap vs ts :
  mapM timestamp_of vs = Some ts → zip_with row_of vs ts = row <$> vs.
Proof.
  rewrite mapM_Some. induction 1 as [|v t vs ts Hv _ IH]; simpl; [done|].
  unfold row at 1. rewrite Hv. simpl. by rewrite IH.
Qed.

Lemma row_lt_asymmetric r1 r2 : row_lt r1 r2 → row_lt r2 r1 → r1 = r2.
Proof.
  unfold row_lt. destruct (index r1), (index r2); simpl; try tauto. lia.
Qed.

(** X1.  Executions whose status is not SUCCESS are skipped: they add a dot
    to the output and nothing else, so the frame and the local files are
    those of the successful executions alone, also when the cell raises. *)
Theorem unsuccessful_executions_are_skipped local es :
  fst <$> aggregate local es = fst <$> aggregate local (succeeded es)
  ∧ files_left local es = files_left local (succeeded es).
Proof.
  unfold aggregate, files_left, collect.
  pose proof (for_each_succeeded es
                {| results_json := []; fs := local; trace := [] |}
                {| results_json := []; fs := local; trace := [] |} eq_refl eq_refl) as H.
  destruct (for_each _ es) as [x|a], (for_each _ (succeeded es)) as [y|b];
    simpl in *; try done.
  - by subst.
  - destruct H as [-> ->]. split; [|done].
    by destruct (build_results_df (results_json b)).
Qed.

(** X2.  When no execution has the status SUCCESS (none was listed, or all
    failed or are in progress) the cell does not return an empty frame: it
    raises [KeyError] on the timestamp column, and touches no local file. *)
Theorem nothing_succeeded_raises local es :
  (∀ e, e ∈ es → Status e ≠ "SUCCESS") →
  aggregate local es = inl (KeyError "timestamp")
  ∧ files_left local es = local.
Proof.
  intros Hall. unfold aggregate, files_left, collect.
  by rewrite (for_each_all_skipped es _ Hall).
Qed.

(** X3.  [key.split('/')[-2]] raises [IndexError] exactly when the key has
    no [/]; a successful execution with such a key makes the loop body
    raise [IndexError], whatever the results collected so far, the store,
    the local files and their lines are. *)
Theorem key_without_folder_raises st e obj :
  (index_from_end (split "/"%char (Key obj)) 2 = inl IndexError
   ↔ occurs "/" (Key obj) = false)
  ∧ (Status e = "SUCCESS" →
     CustomerResultObject e = Some obj →
     occurs "/" (Key obj) = false →
     loop_body st e = inl IndexError).
Proof.
  assert (Hshort : occurs "/" (Key obj) = false →
                   index_from_end (split "/"%char (Key obj)) 2 = inl IndexError).
  { intros Hocc. rewrite (split_without_separator _ _ Hocc).
    by rewrite index_from_end_short by (simpl; lia). }
  split.
  - split; [|done]. intros H.
    destruct (occurs "/" (Key obj)) eqn:Hocc; [|done]. exfalso.
    apply split_with_separator, index_from_end_long in Hocc as [ts Hts].
    by rewrite Hts in H.
  - intros Hs Hobj Hocc. unfold loop_body. rewrite Hs, Hobj. simpl.
    by rewrite (Hshort Hocc).
Qed.

(** A character that IPython and the shell leave as it is inside a word:
    a letter, a digit or one of [- _ . / : + = @ , %]. *)
Definition shell_char (c : ascii) : bool :=
  let n := nat_of_ascii c in
  ((48 <=? n)%nat && (n <=? 57)%nat)
  || ((65 <=? n)%nat && (n <=? 90)%nat)
  || ((97 <=? n)%nat && (n <=? 122)%nat)
  || existsb (Ascii.eqb c) ["-"; "_"; "."; "/"; ":"; "+"; "="; "@"; ","; "%"]%char.

(** A name that reaches the command as one argument, unchanged, when it is
    interpolated without quotes: not empty, no leading dash, and made of
    such characters only. *)
Definition shell_word (s : string) : bool :=
  match s with
  | EmptyString => false
  | String c _ => negb (Ascii.eqb c "-") && forallb shell_char (list_ascii_of_string s)
  end.

(** X4.  For a result key of the form [d1/.../dn/folder/file] the object is
    copied to [INFERENCE_DATA/output/centrifugal-pump_<folder>.jsonl]: the
    local name is made of the last folder of the key alone, not of the
    bucket, the folders above it or the file name.  The lines of the object
    are then evaluated and appended.  The two names are interpolated into
    the command without quotes, so this is stated for names that are single
    shell words. *)
Theorem result_is_copied_under_its_folder_name
    st e bucket dirs folder file lines values :
  Status e = "SUCCESS" →
  CustomerResultObject e =
    Some {| Bucket := bucket; Key := under dirs (folder +:+ "/" +:+ file) |} →
  occurs "/" folder = false →
  occurs "/" file = false →
  shell_word ("s3://" +:+ bucket +:+ "/" +:+ under dirs (folder +:+ "/" +:+ file)) = true →
  shell_word (INFERENCE_DATA +:+ "/output/centrifugal-pump_" +:+ folder +:+ ".jsonl")
    = true →
  s3 !! ("s3://" +:+ bucket +:+ "/" +:+ under dirs (folder +:+ "/" +:+ file)) = Some lines →
  eval_lines lines = inr values →
  loop_body st e =
    inr {| results_json := results_json st ++ values;
           fs := <[INFERENCE_DATA +:+ "/output/centrifugal-pump_" +:+ folder +:+ ".jsonl"
                   := lines]> (fs st);
           trace := trace st
                    ++ [EvDot;
                        EvS3Copy
                          ("s3://" +:+ bucket +:+ "/" +:+ under dirs (folder +:+ "/" +:+ file))
                          (INFERENCE_DATA +:+ "/output/centrifugal-pump_" +:+ folder
                             +:+ ".jsonl")] |}.
Proof.
  intros Hs Hobj Hfolder Hfile _ _ Hstore Hev.
  destruct (split_under dirs folder file Hfolder Hfile) as [l Hsplit].
  unfold loop_body. rewrite Hs, Hobj. simpl.
  rewrite Hsplit, index_from_end_app_two. simpl.
  unfold aws_s3_cp, readlines. rewrite Hstore, lookup_insert_eq. simpl.
  rewrite Hev. simpl. by rewrite <- app_assoc.
Qed.

(** X5.  The copy fails silently.  When the store does not hold the result
    object of a successful execution, the loop body reads whatever local
    file already has the name: its lines are evaluated and appended as if
    they were the results, and only when there is no such file does the
    body raise [FileNotFoundError]. *)
Theorem missing_object_falls_back_to_local_file st e obj current_timestamp :
  Status e = "SUCCESS" →
  CustomerResultObject e = Some obj →
  index_from_end (split "/"%char (Key obj)) 2 = inr current_timestamp →
  s3 !! s3_fname_of obj = None →
  loop_body st e =
    match fs st !! local_fname_of current_timestamp with
    | None => inl (FileNotFoundError (local_fname_of current_timestamp))
    | Some lines =>
        content ← eval_lines lines;
        mret {| results_json := results_json st ++ content;
                fs := fs st;
                trace := trace st
                         ++ [EvDot;
                             EvS3Copy (s3_fname_of obj)
                               (local_fname_of current_timestamp)] |}
    end.
Proof.
  intros Hs Hobj Hts Hstore.
  unfold loop_body. rewrite Hs, Hobj. simpl. rewrite Hts. simpl.
  fold (s3_fname_of obj) (local_fname_of current_timestamp).
  unfold aws_s3_cp, readlines. rewrite Hstore.
  destruct (fs st !! local_fname_of current_timestamp) as [lines|]; simpl; [|done].
  destruct (eval_lines lines) as [err|content]; simpl; [done|].
  by rewrite <- app_assoc.
Qed.

(** X6.  When the values the loop collected are records and the cell
    returns a frame, the frame has exactly one row for each of them: rows
    with equal timestamps are not merged and records without a timestamp
    are not dropped.  There is at least one row, and the rows are in
    ascending order of their index, those without a time last. *)
Theorem frame_has_a_row_per_value local es values df tr :
  results_json <$> collect local es = inr values →
  Forall (fun v => ∃ d, v = PyDict d) values →
  aggregate local es = inr (df, tr) →
  trace <$> collect local es = inr tr
  ∧ length df = length values
  ∧ StronglySorted row_le df
  ∧ df ≠ [].
Proof.
  unfold aggregate. intros Hrun _ H.
  destruct (collect local es) as [err|st]; simpl in *; [done|].
  injection Hrun as <-.
  destruct (build_results_df (results_json st)) as [err|df'] eqn:Hdf; simpl in H; [done|].
  inversion H; subst.
  destruct (build_results_df_shape _ _ Hdf) as (Hlen & Hsorted & _ & Hne).
  repeat split; try done.
  intros ->. simpl in Hlen. by destruct (results_json st).
Qed.

Lemma dict_remove_keys k d :
  (dict_remove k d).*1 = filter (fun k' => k' ≠ k) d.*1.
Proof.
  unfold dict_remove. induction d as [|[k' v] d IH]; [done|].
  rewrite fmap_cons, !filter_cons. simpl.
  destruct (String.eqb_spec k k') as [->|Hne]; simpl.
  - by rewrite decide_False by (by intros ?).
  - rewrite decide_True by (by intros ->). csimpl. by rewrite <- IH.
Qed.

(** X7.  The order in which the executions are listed does not matter.  With
    the result objects in the store and records that all have the same
    fields in the same order, with readable, pairwise distinct timestamps,
    the cell returns the same frame for every rearrangement of the
    summaries, whatever local files it starts from: the same rows in the
    same order, each with the fields of the records but the timestamp as its
    columns. *)
Theorem listing_order_is_irrelevant local local' es es' contents ts fields :
  es ≡ₚ es' →
  mapM fetch (succeeded es) = Some contents →
  Forall (fun v => ∃ d, v = PyDict d ∧ d.*1 = fields) (concat contents) →
  mapM timestamp_of (concat contents) = Some ts →
  NoDup ts →
  ts ≠ [] →
  ∃ df, fst <$> aggregate local es = inr df
        ∧ fst <$> aggregate local' es' = inr df
        ∧ Forall (fun r => (columns r).*1 = filter (fun k => k ≠ "timestamp") fields) df.
Proof.
  intros Hperm Hm Hfields Hts Hnd Hne.
  assert (Hsucc : succeeded es ≡ₚ succeeded es').
  { unfold succeeded. by rewrite Hperm. }
  destruct (mapM_permutation fetch _ _ Hsucc contents Hm) as (contents' & Hm' & Hc).
  assert (Hvs : concat contents ≡ₚ concat contents').
  { by apply concat_permutation. }
  destruct (mapM_permutation timestamp_of _ _ Hvs ts Hts) as (ts' & Hts' & Htp).
  destruct (collect_contents local es contents Hm) as (st & Hrun & Hres & _).
  destruct (collect_contents local' es' contents' Hm') as (st' & Hrun' & Hres' & _).
  assert (Hvne : concat contents ≠ []).
  { apply (length_mapM timestamp_of) in Hts. destruct (concat contents), ts; done. }
  assert (Hvne' : concat contents' ≠ []).
  { intros Hnil. rewrite Hnil in Hvs. by apply Permutation_nil_r in Hvs. }
  exists (sort_index (zip_with row_of (concat contents) ts)).
  unfold aggregate. rewrite Hrun, Hrun'. simpl. rewrite Hres, Hres'.
  rewrite (build_results_df_records _ ts Hts Hvne).
  rewrite (build_results_df_records _ ts' Hts' Hvne'). simpl.
  split; [done|]. split.
  - f_equal.
    apply (StronglySorted_unique_strong row_lt).
    + intros r1 r2 _ _. apply row_lt_asymmetric.
    + apply sort_index_strict.
      rewrite index_zip_rows by by apply (length_mapM timestamp_of).
      apply NoDup_fmap_2; [by intros ?? [=]|]. by rewrite <- Htp.
    + apply sort_index_strict.
      rewrite index_zip_rows by by apply (length_mapM timestamp_of).
      apply NoDup_fmap_2; [by intros ?? [=]|done].
    + rewrite !sort_index_perm, (zip_rows_fmap _ _ Hts), (zip_rows_fmap _ _ Hts').
      by rewrite Hvs.
  - rewrite sort_index_perm, (zip_rows_fmap _ _ Hts). apply Forall_fmap.
    apply (Forall_impl _ _ _ Hfields). intros v (d & -> & <-). simpl.
    apply dict_remove_keys.
Qed.

End Cell28.

(** *** The evaluation of the lines in the notebook's namespace *)

Section Namespace.

(** What [eval] works in: the global names of the notebook, [results_json]
    among them, the objects they are bound to and what lies behind them.
    [results_json_of] is the list [results_json] is bound to, when it is
    bound to a list, and [rebind_results_json] the assignment of a list to
    that name; [add_to_other] is [results_json = results_json + content]
    when the name is bound to something else, or to nothing. *)
Variable namespace : Type.
Variable results_json_of : namespace → option (list pyval).
Variable rebind_results_json : list pyval → namespace → namespace.
Variable add_to_other : namespace → list pyval → namespace * (string + unit).
Hypothesis results_json_rebound :
  ∀ l ns, results_json_of (rebind_results_json l ns) = Some l.

(** Python's builtin [eval] on a line, called from the comprehension: it
    reads and may change the namespace, and either returns the value of the
    expression or raises an exception, given by the name of its class. *)
Variable eval : namespace → string → namespace * (string + pyval).

(** [content = [eval(line) for line in lines]]: the lines are evaluated in
    order, each in the namespace the one before left; the first exception
    ends the comprehension. *)
Fixpoint comprehension (ns : namespace) (lines : list string)
  : namespace * (string + list pyval) :=
  match lines with
  | [] => (ns, inr [])
  | line :: rest =>
      match eval ns line with
      | (ns', inl exception) => (ns', inl exception)
      | (ns', inr v) =>
          match comprehension ns' rest with
          | (ns'', inl exception) => (ns'', inl exception)
          | (ns'', inr vs) => (ns'', inr (v :: vs))
          end
      end
  end.

(** The two statements under [with open(local_fname, 'r') as f], on the
    lines [f.readlines()] gave: the comprehension, then
    [results_json = results_json + content]. *)
Definition merge_content (ns : namespace) (lines : list string)
  : namespace * (string + unit) :=
  match comprehension ns lines with
  | (ns', inl exception) => (ns', inl exception)
  | (ns', inr content) =>
      match results_json_of ns' with
      | Some results_json => (rebind_results_json (results_json ++ content) ns', inr tt)
      | None => add_to_other ns' content
      end
  end.

(** The evaluation of every line returns: the values, and the namespace the
    evaluations leave. *)
Inductive evaluated : namespace → list string → list pyval → namespace → Prop :=
| evaluated_nil ns : evaluated ns [] [] ns
| evaluated_cons ns line ns1 v rest vs ns2 :
    eval ns line = (ns1, inr v) →
    evaluated ns1 rest vs ns2 →
    evaluated ns (line :: rest) (v :: vs) ns2.

Lemma comprehension_evaluated lines : ∀ ns content ns',
  comprehension ns lines = (ns', inr content) ↔ evaluated ns lines content ns'.
Proof.
  induction lines as [|line rest IH]; intros ns content ns'; simpl.
  - split; [by intros [= <- <-]; constructor|]. by inversion 1.
  - destruct (eval ns line) as [ns1 [exception|v]] eqn:Hline.
    + split; [done|]. inversion 1; congruence.
    + destruct (comprehension ns1 rest) as [ns2 [exception|vs]] eqn:Hrest.
      * split; [done|]. inversion 1 as [|? ? ? ? ? ? ? Hl Hr]; subst.
        rewrite Hline in Hl. injection Hl as <- <-.
        apply IH in Hr. congruence.
      * split.
        -- intros [= <- <-]. apply evaluated_cons with ns1; [done|]. by apply IH.
        -- inversion 1 as [|? ? ? ? ? ? ? Hl Hr]; subst.
           rewrite Hline in Hl. injection Hl as <- <-.
           apply IH in Hr. congruence.
Qed.

Lemma comprehension_raises lines : ∀ ns evaluated_lines line rest content ns1 ns2 exception,
  lines = evaluated_lines ++ line :: rest →
  evaluated ns evaluated_lines content ns1 →
  eval ns1 line = (ns2, inl exception) →
  comprehension ns lines = (ns2, inl exception).
Proof.
  intros ns done line rest content ns1 ns2 exception -> Hdone Hline.
  induction Hdone as [ns|ns l ns' v ls vs ns'' Hl _ IH]; simpl.
  - by rewrite Hline.
  - rewrite Hl. by rewrite (IH Hline).
Qed.

(** C10.  Each line of the downloaded file is evaluated with [eval] in the
    notebook's namespace.  When the evaluation of every line returns, the
    values are appended, in the order of the lines and whatever they are
    (nothing checks that a value is a record, or that it has a timestamp, a
    prediction or diagnostics), to the list [results_json] is bound to once
    the lines have been evaluated, which an expression may itself have
    changed.  When the evaluation of a line raises, the exception leaves the
    cell: the lines after it are not evaluated and [results_json] is not
    assigned.  The statements end normally only if every line evaluated. *)
Theorem eval_values_appended_unchecked ns lines :
  (∀ content ns' results_json,
     evaluated ns lines content ns' →
     results_json_of ns' = Some results_json →
     merge_content ns lines
       = (rebind_results_json (results_json ++ content) ns', inr tt)
     ∧ results_json_of (merge_content ns lines).1 = Some (results_json ++ content))
  ∧ (∀ evaluated_lines line rest content ns1 ns2 exception,
       lines = evaluated_lines ++ line :: rest →
       evaluated ns evaluated_lines content ns1 →
       eval ns1 line = (ns2, inl exception) →
       merge_content ns lines = (ns2, inl exception))
  ∧ ((merge_content ns lines).2 = inr tt →
       ∃ content ns', evaluated ns lines content ns').
Proof.
  unfold merge_content. split; [|split].
  - intros content ns' results_json Hev Hbound.
    apply comprehension_evaluated in Hev. rewrite Hev, Hbound.
    split; [done|]. simpl. apply results_json_rebound.
  - intros done line rest content ns1 ns2 exception Hlines Hdone Hline.
    by rewrite (comprehension_raises lines ns done line rest content ns1 ns2 exception).
  - intros H.
    destruct (comprehension ns lines) as [ns1 [exception|content]] eqn:Hc; [done|].
    exists content, ns1. by apply comprehension_evaluated.
Qed.

End Namespace.

(** *** A small store, to run the cell on *)

Module Demo.

Definition INFERENCE_DATA : string := "../data/processed/pump/inference-data".

Definition line_2000 : string :=
  "{'timestamp': '2021-04-07T20:00:00.000000', 'prediction': 0}".
Definition line_2005 : string :=
  "{'timestamp': '2021-04-07T20:05:00.000000', 'prediction': 1, 'diagnostics': [{'name': 'centrifugal-pump\\Sensor0', 'value': 0.12}]}".
Definition line_2000_bis : string :=
  "{'timestamp': '2021-04-07T20:00:00.000000', 'prediction': 1}".
Definition line_html : string := "<html>503 Slow Down</html>".
Definition line_sum : string := "1 + 1".
Definition line_cwd : string := "__import__('os').getcwd()".
Definition line_call : string := "dict(timestamp='2021-04-07T20:10:00.000000')".

Definition rec_2000 : pyval :=
  PyDict [("timestamp", PyStr "2021-04-07T20:00:00.000000"); ("prediction", PyInt 0)].
Definition rec_2000_bis : pyval :=
  PyDict [("timestamp", PyStr "2021-04-07T20:00:00.000000"); ("prediction", PyInt 1)].
Definition rec_2005 : pyval :=
  PyDict [("timestamp", PyStr "2021-04-07T20:05:00.000000"); ("prediction", PyInt 1);
          ("diagnostics",
           PyList [PyDict [("name", PyStr "centrifugal-pump\Sensor0");
                           ("value", PyFloat 12 (-2))]])].

(** [eval] on the lines above: the records, an integer, a string, a record
    built by a call, and a SyntaxError for everything else. *)
Definition eval (line : string) : option pyval :=
  if String.eqb line line_2000 then Some rec_2000
  else if String.eqb line line_2000_bis then Some rec_2000_bis
  else if String.eqb line line_2005 then Some rec_2005
  else if String.eqb line line_sum then Some (PyInt 2)
  else if String.eqb line line_cwd then Some (PyStr "/home/ec2-user/SageMaker")
  else if String.eqb line line_call
       then Some (PyDict [("timestamp", PyStr "2021-04-07T20:10:00.000000")])
  else None.

(** [pd.to_datetime] on the cells above (nanoseconds since the epoch). *)
Definition to_datetime (v : pyval) : option Timestamp :=
  match v with
  | PyNone => Some NaT
  | PyInt n => Some (At n)
  | PyStr s =>
      if String.eqb s "2021-04-07T20:00:00.000000" then Some (At 1617825600000000000)
      else if String.eqb s "2021-04-07T20:05:00.000000" then Some (At 1617825900000000000)
      else if String.eqb s "2021-04-07T20:10:00.000000" then Some (At 1617826200000000000)
      else None
  | _ => None
  end.

Definition summary (fired : Z) (status : string) (folder : string) : ExecutionSummary :=
  {| ScheduledStartTime := fired;
     DataStartTime := fired - 300;
     DataEndTime := fired;
     Status := status;
     CustomerResultObject :=
       Some {| Bucket := "bucket";
               Key := "inference/output/" +:+ folder +:+ "/results.jsonl" |} |}.

(** Six executions: two with one record each at different instants, one
    that reports the instant of the first again with another prediction, one
    whose object has a line that is not Python, one whose lines are Python
    but no records, and one whose line is a call that builds a record with
    nothing but a timestamp. *)
Definition exec_2000 := summary 1617825900 "SUCCESS" "2021-04-07T20:05:00Z".
Definition exec_2005 := summary 1617826200 "SUCCESS" "2021-04-07T20:10:00Z".
Definition exec_again := summary 1617826500 "SUCCESS" "2021-04-07T20:15:00Z".
Definition exec_broken := summary 1617826800 "SUCCESS" "2021-04-07T20:20:00Z".
Definition exec_loose := summary 1617827100 "SUCCESS" "2021-04-07T20:25:00Z".
Definition exec_call := summary 1617827400 "SUCCESS" "2021-04-07T20:30:00Z".

Definition s3 : files :=
  list_to_map
    [("s3://bucket/inference/output/2021-04-07T20:05:00Z/results.jsonl", [line_2000]);
     ("s3://bucket/inference/output/2021-04-07T20:10:00Z/results.jsonl", [line_2005]);
     ("s3://bucket/inference/output/2021-04-07T20:15:00Z/results.jsonl", [line_2000_bis]);
     ("s3://bucket/inference/output/2021-04-07T20:20:00Z/results.jsonl", [line_2005; line_html]);
     ("s3://bucket/inference/output/2021-04-07T20:25:00Z/results.jsonl", [line_sum; line_cwd]);
     ("s3://bucket/inference/output/2021-04-07T20:30:00Z/results.jsonl", [line_call])].

Definition run := aggregate INFERENCE_DATA s3 eval to_datetime.

End Demo.

(** *** The cell on the small store *)

Import Demo.

Definition events (es : list ExecutionSummary) : list event :=
  loop_events INFERENCE_DATA es.

(** A scheduler that holds a list of summaries and whose refresh finds
    nothing new, and the whole cell run on it. *)
Definition refresh (held : list ExecutionSummary)
  : list ExecutionSummary * list ExecutionSummary := (held, held).

Definition pass (held : list ExecutionSummary) (local : files)
  : list ExecutionSummary * result (DataFrame * list event) :=
  cell_28 INFERENCE_DATA (list ExecutionSummary) refresh id s3 eval to_datetime held local.

Definition row_2000 : Row :=
  {| index := At 1617825600000000000; columns := [("prediction", PyInt 0)] |}.
Definition row_2000_bis : Row :=
  {| index := At 1617825600000000000; columns := [("prediction", PyInt 1)] |}.
Definition row_2005 : Row := row_of rec_2005 1617825900000000000.

Lemma aggregate_disjoint_executions_witness :
  ∃ df tr,
    run ∅ [exec_2000; exec_2005] = inr (df, tr)
    ∧ length df = (length [rec_2000] + length [rec_2005])%nat
    ∧ StronglySorted row_lt df
    ∧ df ≡ₚ zip_with row_of ([rec_2000] ++ [rec_2005])
              ([1617825600000000000] ++ [1617825900000000000]).
Proof.
  apply (aggregate_disjoint_executions INFERENCE_DATA s3 eval to_datetime ∅
           exec_2000 exec_2005 [rec_2000] [rec_2005]
           [1617825600000000000] [1617825900000000000]);
    try (vm_compute; reflexivity).
  - apply (bool_decide_unpack _). vm_compute. exact I.
  - discriminate.
Defined.

(** C3, the claim as written fails: two executions that report the instant
    2021-04-07T20:00:00 are aggregated without an error, and the frame holds
    both rows under that one label. *)
Lemma collision_raises_nothing :
  timestamp_of to_datetime rec_2000 = Some 1617825600000000000
  ∧ timestamp_of to_datetime rec_2000_bis = Some 1617825600000000000
  ∧ run ∅ [exec_2000; exec_again] =
      inr ([row_2000; row_2000_bis], events [exec_2000; exec_again]).
Proof. vm_compute. repeat split. Qed.

Lemma aggregate_colliding_executions_witness :
  ∃ df tr,
    run ∅ [exec_2000; exec_again] = inr (df, tr)
    ∧ df ≡ₚ zip_with row_of [rec_2000] [1617825600000000000]
            ++ zip_with row_of [rec_2000_bis] [1617825600000000000]
    ∧ At 1617825600000000000 ∈ index <$> zip_with row_of [rec_2000] [1617825600000000000]
    ∧ At 1617825600000000000 ∈ index <$> zip_with row_of [rec_2000_bis] [1617825600000000000]
    ∧ StronglySorted row_le df.
Proof.
  apply (aggregate_colliding_executions INFERENCE_DATA s3 eval to_datetime ∅
           exec_2000 exec_again [rec_2000] [rec_2000_bis]
           [1617825600000000000] [1617825600000000000] 1617825600000000000);
    try (vm_compute; reflexivity); apply list_elem_of_here.
Defined.

(** C7, the claim as written fails: the object of [exec_broken] has a
    well-formed record and a line that is not Python; aggregating it between
    two readable executions ends the whole cell with the exception, although
    the other two executions alone aggregate to a frame of two rows. *)
Lemma unreadable_line_is_fatal_to_the_run :
  s3 !! "s3://bucket/inference/output/2021-04-07T20:20:00Z/results.jsonl"
    = Some [line_2005; line_html]
  ∧ eval line_2005 = Some rec_2005
  ∧ eval line_html = None
  ∧ run ∅ [exec_2000; exec_broken; exec_2005] = inl (EvalError line_html)
  ∧ run ∅ [exec_2000; exec_2005] =
      inr ([row_2000; row_2005], events [exec_2000; exec_2005]).
Proof. vm_compute. repeat split. Qed.

Lemma unreadable_line_aborts_aggregation_witness :
  ∃ bad, bad ∈ [line_2005; line_html] ∧ eval bad = None
         ∧ run ∅ ([exec_2000] ++ exec_broken :: [exec_2005]) = inl (EvalError bad).
Proof.
  apply (unreadable_line_aborts_aggregation INFERENCE_DATA s3 eval to_datetime ∅
           [exec_2000] exec_broken [exec_2005] [rec_2000]
           {| Bucket := "bucket";
              Key := "inference/output/2021-04-07T20:20:00Z/results.jsonl" |}
           "2021-04-07T20:20:00Z" [line_2005; line_html] line_html);
    try (vm_compute; reflexivity).
  apply list_elem_of_further, list_elem_of_here.
Defined.

(** C8, the claim as written fails: a second pass of the cell over the same
    summary, started from the local files the first pass left, copies the
    object of the already aggregated execution again and rebuilds the same
    frame. *)
Lemma second_pass_copies_again :
  let copy :=
    EvS3Copy "s3://bucket/inference/output/2021-04-07T20:05:00Z/results.jsonl"
      "../data/processed/pump/inference-data/output/centrifugal-pump_2021-04-07T20:05:00Z.jsonl" in
  (pass [exec_2000] ∅).2 = inr ([row_2000], [EvDot; copy])
  ∧ (pass [exec_2000] (files_left INFERENCE_DATA s3 eval ∅ [exec_2000])).2
    = inr ([row_2000], [EvDot; copy]).
Proof. vm_compute. split; reflexivity. Qed.

Lemma repeated_pass_rebuilds_witness :
  let es := [exec_2000; exec_again] in
  let df := [row_2000; row_2000_bis] in
  build_results_df to_datetime (concat [[rec_2000]; [rec_2000_bis]]) = inr df
  ∧ events es = loop_events INFERENCE_DATA es
  ∧ (∀ e, e ∈ succeeded es → ∃ c, copy_of INFERENCE_DATA e = [c] ∧ c ∈ events es)
  ∧ (pass es (files_left INFERENCE_DATA s3 eval ∅ es)).2 = inr (df, events es)
  ∧ ∀ local', (pass es local').2 = inr (df, events es).
Proof.
  apply (repeated_pass_rebuilds INFERENCE_DATA (list ExecutionSummary) refresh id
           s3 eval to_datetime [exec_2000; exec_again] ∅
           [[rec_2000]; [rec_2000_bis]]
           [row_2000; row_2000_bis] (events [exec_2000; exec_again]));
    vm_compute; reflexivity.
Defined.

(** *** Lines that are expressions but no records *)

Definition line_zero : string := "1/0".
Definition line_index : string := "[][0]".
Definition line_clear : string := "results_json.clear()".

(** A namespace with nothing but the list [results_json] is bound to, and an
    [eval] that knows the lines of the small store, a division by zero, an
    index out of range and a call that empties [results_json] and returns
    [None]. *)
Definition eval_in (results_json : list pyval) (line : string)
  : list pyval * (string + pyval) :=
  if String.eqb line line_zero then (results_json, inl "ZeroDivisionError")
  else if String.eqb line line_index then (results_json, inl "IndexError")
  else if String.eqb line line_clear then ([], inr PyNone)
  else match eval line with
       | Some v => (results_json, inr v)
       | None => (results_json, inl "SyntaxError")
       end.

Definition merge : list pyval → list string → list pyval * (string + unit) :=
  merge_content (list pyval) Some (fun l _ => l) (fun ns _ => (ns, inl "TypeError"))
    eval_in.

(** A line that is a valid expression is not always accepted, and its value
    is not always merged into the results accumulated so far: the division
    raises and ends the cell with nothing of the file merged, and after the
    call the results of the earlier executions are gone. *)
Lemma valid_expression_is_not_always_accepted :
  merge [rec_2000] [line_2005; line_zero] = ([rec_2000], inl "ZeroDivisionError")
  ∧ merge [rec_2000] [line_clear; line_2005] = ([PyNone; rec_2005], inr tt).
Proof. split; vm_compute; reflexivity. Qed.

Lemma eval_values_appended_unchecked_witness :
  merge [rec_2000] [line_sum; line_cwd]
    = ([rec_2000; PyInt 2; PyStr "/home/ec2-user/SageMaker"], inr tt)
  ∧ merge [rec_2000] [line_2005; line_index; line_sum] = ([rec_2000], inl "IndexError").
Proof.
  pose proof (eval_values_appended_unchecked (list pyval) Some (fun l _ => l)
                (fun ns _ => (ns, inl "TypeError")) (fun l ns => eq_refl) eval_in
                [rec_2000] [line_sum; line_cwd]) as (Happend & _ & _).
  pose proof (eval_values_appended_unchecked (list pyval) Some (fun l _ => l)
                (fun ns _ => (ns, inl "TypeError")) (fun l ns => eq_refl) eval_in
                [rec_2000] [line_2005; line_index; line_sum]) as (_ & Hraise & _).
  split.
  - apply (Happend [PyInt 2; PyStr "/home/ec2-user/SageMaker"] [rec_2000] [rec_2000]);
      [|reflexivity].
    apply evaluated_cons with [rec_2000]; [vm_compute; reflexivity|].
    apply evaluated_cons with [rec_2000]; [vm_compute; reflexivity|]. constructor.
  - apply (Hraise [line_2005] line_index [line_sum] [rec_2005] [rec_2000] [rec_2000]
             "IndexError"); [reflexivity| |vm_compute; reflexivity].
    apply evaluated_cons with [rec_2000]; [vm_compute; reflexivity|]. constructor.
Defined.

(** *** Executions that do not go the usual way *)

(** An execution that failed, one still in progress, one whose result key
    has no folder, and one whose result object is not in the store. *)
Definition exec_failed := summary 1617827700 "FAILED" "2021-04-07T20:35:00Z".
Definition exec_running := summary 1617828000 "IN_PROGRESS" "2021-04-07T20:40:00Z".
Definition exec_flat : ExecutionSummary :=
  {| ScheduledStartTime := 1617828300;
     DataStartTime := 1617828000;
     DataEndTime := 1617828300;
     Status := "SUCCESS";
     CustomerResultObject := Some {| Bucket := "bucket"; Key := "results.jsonl" |} |}.
Definition exec_lost := summary 1617828600 "SUCCESS" "2021-04-07T20:50:00Z".

Definition fresh : loop_state := {| results_json := []; fs := ∅; trace := [] |}.

(** A local directory that still holds a file of an earlier run under the
    name the copy of [exec_lost] would have had. *)
Definition stale : loop_state :=
  {| results_json := [];
     fs := {[ local_fname_of INFERENCE_DATA "2021-04-07T20:50:00Z" := [line_2000] ]};
     trace := [] |}.

Lemma nothing_succeeded_raises_witness :
  run ∅ [exec_failed; exec_running] = inl (KeyError "timestamp").
Proof.
  apply (nothing_succeeded_raises INFERENCE_DATA s3 eval to_datetime ∅
           [exec_failed; exec_running]).
  intros e He. apply list_elem_of_In in He. simpl in He.
  destruct He as [<-|[<-|[]]]; discriminate.
Defined.

Lemma key_without_folder_raises_witness :
  loop_body INFERENCE_DATA s3 eval fresh exec_flat = inl IndexError.
Proof.
  apply (proj2 (key_without_folder_raises INFERENCE_DATA s3 eval fresh exec_flat
                  {| Bucket := "bucket"; Key := "results.jsonl" |})); reflexivity.
Defined.

Lemma result_is_copied_under_its_folder_name_witness :
  loop_body INFERENCE_DATA s3 eval fresh exec_2000 =
    inr {| results_json := [rec_2000];
           fs := {[ "../data/processed/pump/inference-data/output/centrifugal-pump_2021-04-07T20:05:00Z.jsonl"
                    := [line_2000] ]};
           trace := [EvDot;
                     EvS3Copy
                       "s3://bucket/inference/output/2021-04-07T20:05:00Z/results.jsonl"
                       "../data/processed/pump/inference-data/output/centrifugal-pump_2021-04-07T20:05:00Z.jsonl"] |}.
Proof.
  apply (result_is_copied_under_its_folder_name INFERENCE_DATA s3 eval fresh exec_2000
           "bucket" ["inference"; "output"] "2021-04-07T20:05:00Z" "results.jsonl"
           [line_2000] [rec_2000]); vm_compute; reflexivity.
Defined.

Lemma missing_object_falls_back_to_local_file_witness :
  loop_body INFERENCE_DATA s3 eval fresh exec_lost =
    inl (FileNotFoundError (local_fname_of INFERENCE_DATA "2021-04-07T20:50:00Z"))
  ∧ results_json <$> loop_body INFERENCE_DATA s3 eval stale exec_lost = inr [rec_2000].
Proof.
  split.
  - apply (missing_object_falls_back_to_local_file INFERENCE_DATA s3 eval fresh exec_lost
             {| Bucket := "bucket";
                Key := "inference/output/2021-04-07T20:50:00Z/results.jsonl" |}
             "2021-04-07T20:50:00Z"); vm_compute; reflexivity.
  - rewrite (missing_object_falls_back_to_local_file INFERENCE_DATA s3 eval stale exec_lost
               {| Bucket := "bucket";
                  Key := "inference/output/2021-04-07T20:50:00Z/results.jsonl" |}
               "2021-04-07T20:50:00Z") by (vm_compute; reflexivity).
    vm_compute. reflexivity.
Defined.

Lemma frame_has_a_row_per_value_witness :
  trace <$> collect INFERENCE_DATA s3 eval ∅ [exec_2000; exec_failed; exec_2005]
    = inr (events [exec_2000; exec_failed; exec_2005])
  ∧ length [row_2000; row_2005] = length [rec_2000; rec_2005]
  ∧ StronglySorted row_le [row_2000; row_2005]
  ∧ [row_2000; row_2005] ≠ [].
Proof.
  apply (frame_has_a_row_per_value INFERENCE_DATA s3 eval to_datetime ∅
           [exec_2000; exec_failed; exec_2005] [rec_2000; rec_2005]).
  - vm_compute. reflexivity.
  - repeat constructor; by eexists.
  - vm_compute. reflexivity.
Defined.

(** A store whose result objects hold records with the same fields. *)
Definition line_2010 : string :=
  "{'timestamp': '2021-04-07T20:10:00.000000', 'prediction': 0}".
Definition rec_2010 : pyval :=
  PyDict [("timestamp", PyStr "2021-04-07T20:10:00.000000"); ("prediction", PyInt 0)].
Definition exec_2010 := summary 1617828900 "SUCCESS" "2021-04-07T20:55:00Z".

Definition eval_uniform (line : string) : option pyval :=
  if String.eqb line line_2010 then Some rec_2010 else eval line.

Definition s3_uniform : files :=
  list_to_map
    [("s3://bucket/inference/output/2021-04-07T20:05:00Z/results.jsonl", [line_2000]);
     ("s3://bucket/inference/output/2021-04-07T20:55:00Z/results.jsonl", [line_2010])].

Lemma listing_order_is_irrelevant_witness :
  ∃ df, fst <$> aggregate INFERENCE_DATA s3_uniform eval_uniform to_datetime ∅
                  [exec_2000; exec_running; exec_2010] = inr df
        ∧ fst <$> aggregate INFERENCE_DATA s3_uniform eval_uniform to_datetime (fs stale)
                    [exec_2010; exec_2000; exec_running] = inr df
        ∧ Forall (fun r => (columns r).*1
                           = filter (fun k => k ≠ "timestamp") ["timestamp"; "prediction"])
            df.
Proof.
  apply (listing_order_is_irrelevant INFERENCE_DATA s3_uniform eval_uniform to_datetime
           ∅ (fs stale)
           [exec_2000; exec_running; exec_2010] [exec_2010; exec_2000; exec_running]
           [[rec_2000]; [rec_2010]] [1617825600000000000; 1617826200000000000]).
  - symmetry. exact (Permutation_cons_append [exec_2000; exec_running] exec_2010).
  - vm_compute. reflexivity.
  - repeat constructor; by eexists.
  - vm_compute. reflexivity.
  - apply (bool_decide_unpack _). vm_compute. exact I.
  - discriminate.
Defined.

End Aggregator.

(** ** Directory trees and [os.walk] *)

Module FileTree.

(** A file as [pd.read_csv] sees its first line: the column names, or
    nothing when reading it raises. *)
Record file : Type := { file_name : string; header : option (list string) }.

(** A directory: its sub-directories and its files, in the order in which
    the system lists them. *)
Inductive tree : Type :=
| Dir (dirs : list (string * tree)) (files : list file).

Definition subdirs (t : tree) : list (string * tree) :=
  match t with Dir dirs _ => dirs end.

(** [os.walk(root)], top down: a triple [(dirpath, dirnames, files)] for the
    directory and then for everything below each sub-directory in turn.
    ([root] does not end with a separator, so [os.path.join(root, name)] is
    [root/name].) *)
Fixpoint walk (root : string) (t : tree) : list (string * list string * list file) :=
  match t with
  | Dir dirs files =>
      (root, dirs.*1, files)
        :: (fix below (ds : list (string * tree)) :=
              match ds with
              | [] => []
              | (name, sub) :: ds' => walk (root +:+ "/" +:+ name) sub ++ below ds'
              end) dirs
  end.

(** [os.walk] on a path that may not exist: nothing is yielded, and no
    exception is raised, when it does not. *)
Definition walk_at (root : string) (t : option tree) : list (string * list string * list file) :=
  match t with
  | Some t => walk root t
  | None => []
  end.

(** The directory [name] directly below [t], when there is one. *)
Fixpoint lookup_dir (name : string) (dirs : list (string * tree)) : option tree :=
  match dirs with
  | [] => None
  | (n, sub) :: ds => if String.eqb n name then Some sub else lookup_dir name ds
  end.

Definition child (name : string) (t : tree) : option tree :=
  lookup_dir name (subdirs t).

(** [name] is the name of a directory somewhere below [t]. *)
Inductive has_dir : tree → string → Prop :=
| has_child dirs files name sub :
    (name, sub) ∈ dirs → has_dir (Dir dirs files) name
| has_deeper dirs files name sub c :
    (name, sub) ∈ dirs → has_dir sub c → has_dir (Dir dirs files) c.

(** All the files of a directory and of the directories below it, in the
    order in which [os.walk] meets them. *)
Definition all_files (t : tree) : list file :=
  flat_map (fun step => step.2) (walk "" t).

Lemma tree_induction (P : tree → Prop) :
  (∀ dirs files, Forall (fun d => P d.2) dirs → P (Dir dirs files)) →
  ∀ t, P t.
Proof.
  intros H. fix IH 1. intros [dirs files]. apply H.
  induction dirs as [|[name sub] dirs IHd]; constructor; [apply IH|apply IHd].
Qed.

Lemma walk_unfold root dirs files :
  walk root (Dir dirs files) =
    (root, dirs.*1, files)
      :: flat_map (fun d => walk (root +:+ "/" +:+ d.1) d.2) dirs.
Proof.
  simpl. f_equal. induction dirs as [|[name sub] dirs IH]; simpl; [done|]. by rewrite IH.
Qed.

Lemma walk_nonempty root t : walk root t ≠ [].
Proof. by destruct t. Qed.

(** The files [os.walk] meets do not depend on the path it starts from. *)
Lemma walk_files root t :
  flat_map (fun step => step.2) (walk root t) = all_files t.
Proof.
  unfold all_files. generalize "". revert root.
  induction t as [dirs files IH] using tree_induction. intros root root'.
  rewrite !walk_unfold. simpl. f_equal.
  induction IH as [|[name sub] dirs Hsub _ IHd]; simpl; [done|].
  rewrite !flat_map_app, IHd. f_equal. apply Hsub.
Qed.

Lemma lookup_dir_Some name dirs sub :
  lookup_dir name dirs = Some sub → (name, sub) ∈ dirs.
Proof.
  induction dirs as [|[n t] dirs IH]; simpl; [done|].
  destruct (String.eqb_spec n name) as [->|_].
  - intros [= ->]. by left.
  - intros H. right. by apply IH.
Qed.

Lemma lookup_dir_None name dirs :
  lookup_dir name dirs = None ↔ name ∉ dirs.*1.
Proof.
  induction dirs as [|[n t] dirs IH]; simpl.
  - split; [intros _; apply not_elem_of_nil|done].
  - destruct (String.eqb_spec n name) as [->|Hne].
    + split; [done|]. intros H. destruct H. by left.
    + rewrite IH. split.
      * intros H Hin. apply elem_of_cons in Hin as [?|?]; [by subst|done].
      * intros H Hin. apply H. by right.
Qed.

(** The directory names [os.walk] reports are the names of the directories
    below the starting one, at any depth. *)
Lemma walk_reports_dirs t : ∀ root c,
  (∃ step, step ∈ walk root t ∧ c ∈ step.1.2) ↔ has_dir t c.
Proof.
  induction t as [dirs files IH] using tree_induction. intros root c.
  rewrite walk_unfold. split.
  - intros ([[r ds] fs] & Hstep & Hc). simpl in Hc.
    apply elem_of_cons in Hstep as [[= -> -> ->]|Hstep].
    + apply list_elem_of_fmap in Hc as ([name sub] & -> & Hin).
      by apply has_child with sub.
    + apply list_elem_of_In, in_flat_map in Hstep as ([name sub] & Hin & Hstep).
      apply list_elem_of_In in Hin, Hstep. simpl in Hstep.
      apply has_deeper with name sub; [done|].
      rewrite Forall_forall in IH. apply (IH (name, sub) Hin (root +:+ "/" +:+ name) c).
      by exists (r, ds, fs).
  - inversion 1 as [? ? name sub Hin|? ? name sub ? Hin Hsub]; subst.
    + exists (root, dirs.*1, files). split; [by left|]. simpl.
      by apply (list_elem_of_fmap_2 fst _ (c, sub)).
    + rewrite Forall_forall in IH.
      apply (IH (name, sub) Hin (root +:+ "/" +:+ name) c) in Hsub as (step & Hstep & Hc).
      exists step. split; [|done]. right.
      apply list_elem_of_In, in_flat_map. exists (name, sub).
      split; by apply list_elem_of_In.
Qed.

End FileTree.

(** ** The dataset notebook: components and their fields *)

Module DatasetCreation.

Import FileTree.

Inductive csv_error : Type :=
| ReadError (fname : string).       (* pd.read_csv(fname, nrows=1) raised *)

Section Cells.

(** [TRAIN_DATA] and the directory at that path, when there is one. *)
Variable TRAIN_DATA : string.
Variable top : option tree.

(** The cell that lists the components: every directory name [os.walk]
    reports below [TRAIN_DATA], except the notebook checkpoints. *)
Definition components : list string :=
  flat_map
    (fun step => filter (fun subsystem => subsystem ≠ ".ipynb_checkpoints") step.1.2)
    (walk_at TRAIN_DATA top).

(** [for file in files]: the columns of each file but the first are added
    to [subsystem_tags]. *)
Fixpoint read_files (root : string) (files : list file) (subsystem_tags : list string)
  : csv_error + list string :=
  match files with
  | [] => inr subsystem_tags
  | file :: rest =>
      let fname := root +:+ "/" +:+ file_name file in
      match header file with
      | None => inl (ReadError fname)
      | Some columns => read_files root rest (subsystem_tags ++ tail columns)
      end
  end.

(** [for root, _, files in os.walk(...)]: after the files of each directory
    the map is updated with the tags read so far. *)
Fixpoint walk_component (subsystem : string)
    (steps : list (string * list string * list file))
    (subsystem_tags : list string) (fields_map : gmap string (list string))
  : csv_error + gmap string (list string) :=
  match steps with
  | [] => inr fields_map
  | (root, _, files) :: rest =>
      match read_files root files subsystem_tags with
      | inl e => inl e
      | inr tags => walk_component subsystem rest tags (<[subsystem := tags]> fields_map)
      end
  end.

(** [for subsystem in components]. *)
Fixpoint fields_loop (subsystems : list string) (fields_map : gmap string (list string))
  : csv_error + gmap string (list string) :=
  match subsystems with
  | [] => inr fields_map
  | subsystem :: rest =>
      match walk_component subsystem
              (walk_at (TRAIN_DATA +:+ "/" +:+ subsystem) (top ≫= child subsystem))
              ["Timestamp"] fields_map with
      | inl e => inl e
      | inr fields_map' => fields_loop rest fields_map'
      end
  end.

Definition DATASET_COMPONENT_FIELDS_MAP : csv_error + gmap string (list string) :=
  fields_loop components ∅.

(** The tags of a component: [Timestamp], then the columns but the first of
    every file of its directory and of the directories below it. *)
Definition tags_of (sub : tree) : list string :=
  "Timestamp" :: flat_map (fun f => tail (default [] (header f))) (all_files sub).

Lemma read_files_tags root files : ∀ tags tags',
  read_files root files tags = inr tags' →
  tags' = tags ++ flat_map (fun f => tail (default [] (header f))) files.
Proof.
  induction files as [|f files IH]; intros tags tags' H; simpl in H.
  - inversion H. by rewrite app_nil_r.
  - destruct (header f) as [cols|] eqn:Hh; [|done].
    rewrite (IH _ _ H). simpl. rewrite Hh. simpl. by rewrite <- app_assoc.
Qed.

Lemma walk_component_map c steps : ∀ tags m m',
  walk_component c steps tags m = inr m' →
  m' = match steps with
       | [] => m
       | _ :: _ =>
           <[c := tags ++ flat_map (fun f => tail (default [] (header f)))
                            (flat_map (fun step => step.2) steps)]> m
       end.
Proof.
  induction steps as [|[[root ds] files] steps IH]; intros tags m m' H; simpl in H.
  - by inversion H.
  - destruct (read_files root files tags) as [e|tags1] eqn:Hread; [done|].
    apply read_files_tags in Hread as ->. apply IH in H as ->.
    destruct steps as [|step steps]; simpl.
    + by rewrite app_nil_r.
    + rewrite insert_insert_eq. f_equal.
      rewrite <- app_assoc. f_equal. by rewrite <- flat_map_app.
Qed.

Lemma fields_loop_lookup subsystems : ∀ m m',
  fields_loop subsystems m = inr m' →
  ∀ c, m' !! c =
         match (if bool_decide (c ∈ subsystems) then top ≫= child c else None) with
         | Some sub => Some (tags_of sub)
         | None => m !! c
         end.
Proof.
  induction subsystems as [|s subsystems IH]; intros m m' H c; simpl in H.
  - inversion H; subst. by rewrite bool_decide_false by apply not_elem_of_nil.
  - destruct (walk_component s _ _ m) as [e|m1] eqn:Hwalk; [done|].
    apply walk_component_map in Hwalk. rewrite (IH _ _ H c).
    destruct (decide (c ∈ subsystems)) as [Hin|Hnin].
    + rewrite !bool_decide_true; [|by right|done].
      destruct (top ≫= child c) as [sub|] eqn:Hc; [done|].
      subst m1. destruct (decide (s = c)) as [->|Hne].
      * by rewrite Hc.
      * destruct (walk_at _ (top ≫= child s)); [done|]. by rewrite lookup_insert_ne.
    + rewrite (bool_decide_false (c ∈ subsystems)) by done.
      subst m1. destruct (decide (s = c)) as [->|Hne].
      * rewrite bool_decide_true by by left.
        destruct (top ≫= child c) as [sub|] eqn:Hc; simpl; [|done].
        pose proof (walk_nonempty (TRAIN_DATA +:+ "/" +:+ c) sub) as Hne.
        unfold tags_of. rewrite <- (walk_files (TRAIN_DATA +:+ "/" +:+ c) sub).
        destruct (walk _ sub); [done|]. by rewrite lookup_insert_eq.
      * rewrite bool_decide_false.
        -- destruct (walk_at _ (top ≫= child s)); [done|]. by rewrite lookup_insert_ne.
        -- intros Hin. apply elem_of_cons in Hin as [?|?]; [by subst|done].
Qed.

Lemma checkpoints_are_no_component : ".ipynb_checkpoints" ∉ components.
Proof.
  unfold components. intros H.
  apply list_elem_of_In, in_flat_map in H as (step & _ & Hc).
  apply list_elem_of_In, list_elem_of_filter in Hc as [Hne _]. done.
Qed.

Lemma child_is_component t c sub :
  top = Some t → child c t = Some sub → c ≠ ".ipynb_checkpoints" → c ∈ components.
Proof.
  unfold components. intros Htop Hc Hne. rewrite Htop. destruct t as [dirs files].
  apply lookup_dir_Some in Hc. unfold walk_at.
  rewrite (walk_unfold TRAIN_DATA dirs files). simpl.
  apply elem_of_app. left. apply list_elem_of_filter. split; [done|].
  by apply (list_elem_of_fmap_2 fst _ (c, sub)).
Qed.

(** X8.  The components are the names of all the directories below
    [TRAIN_DATA], at any depth and not only directly below it, except those
    called [.ipynb_checkpoints]; directories inside a checkpoints directory
    are components too.  When [TRAIN_DATA] does not exist there is no
    component and no error. *)
Theorem components_are_all_directories_below c :
  c ∈ components
  ↔ c ≠ ".ipynb_checkpoints" ∧ ∃ t, top = Some t ∧ has_dir t c.
Proof.
  unfold components. destruct top as [t|]; simpl.
  - split.
    + intros H. apply list_elem_of_In, in_flat_map in H as (step & Hstep & Hc).
      apply list_elem_of_In in Hstep, Hc. apply list_elem_of_filter in Hc as [Hne Hc].
      split; [done|]. exists t. split; [done|].
      apply (walk_reports_dirs t TRAIN_DATA c). by exists step.
    + intros (Hne & t' & [= <-] & Hdir).
      apply (walk_reports_dirs t TRAIN_DATA c) in Hdir as (step & Hstep & Hc).
      apply list_elem_of_In, in_flat_map. exists step.
      split; apply list_elem_of_In; [done|]. by apply list_elem_of_filter.
  - split; [by intros H%elem_of_nil|]. by intros (_ & t & [=] & _).
Qed.

(** X9.  When the cell that builds [DATASET_COMPONENT_FIELDS_MAP] ends
    without an error, the map has an entry exactly for the directories
    directly below [TRAIN_DATA] that are not called [.ipynb_checkpoints]; a
    component that is a directory further down gets none.  The entry is
    [Timestamp] followed by the columns, the first one left out whatever its
    name, of every file in the directory and in the directories below it,
    in the order of the walk. *)
Theorem fields_map_entries m :
  DATASET_COMPONENT_FIELDS_MAP = inr m →
  ∀ c, m !! c =
         match top ≫= child c with
         | Some sub =>
             if bool_decide (c = ".ipynb_checkpoints") then None else Some (tags_of sub)
         | None => None
         end.
Proof.
  intros H c. rewrite (fields_loop_lookup _ _ _ H c), lookup_empty.
  destruct (top ≫= child c) as [sub|] eqn:Hc; [|by case_bool_decide].
  destruct top as [t|] eqn:Htop; [|done]. simpl in Hc.
  destruct (decide (c = ".ipynb_checkpoints")) as [->|Hne].
  - rewrite bool_decide_false; [done|]. apply checkpoints_are_no_component.
  - rewrite (bool_decide_false (c = _)) by done.
    rewrite bool_decide_true; [done|]. by apply (child_is_component t c sub).
Qed.

(** A file whose first line [pd.read_csv] can read. *)
Definition readable (f : file) : Prop := header f ≠ None.

Lemma read_files_succeeds root files : ∀ tags,
  (∃ tags', read_files root files tags = inr tags') ↔ Forall readable files.
Proof.
  induction files as [|f files IH]; intros tags; simpl.
  - split; [constructor|]. by exists tags.
  - destruct (header f) as [columns|] eqn:Hh.
    + rewrite IH. split.
      * intros H. constructor; [|done]. unfold readable. by rewrite Hh.
      * by inversion 1.
    + split; [by intros [? ?]|]. inversion 1 as [|? ? Hf]. by destruct Hf.
Qed.

Lemma walk_component_succeeds c steps : ∀ tags m,
  (∃ m', walk_component c steps tags m = inr m')
  ↔ Forall readable (flat_map (fun step => step.2) steps).
Proof.
  induction steps as [|[[root ds] files] steps IH]; intros tags m; simpl.
  - split; [constructor|]. by exists m.
  - rewrite Forall_app, <- (read_files_succeeds root files tags).
    destruct (read_files root files tags) as [e|tags'].
    + split; [by intros [? ?]|]. by intros [[? ?] _].
    + rewrite IH. split; [|by intros [_ ?]]. intros H. split; [by exists tags'|done].
Qed.

Lemma fields_loop_succeeds subsystems : ∀ m,
  (∃ m', fields_loop subsystems m = inr m')
  ↔ ∀ c sub, c ∈ subsystems → top ≫= child c = Some sub →
             Forall readable (all_files sub).
Proof.
  induction subsystems as [|s subsystems IH]; intros m; simpl.
  - split; [|by exists m]. by intros _ c sub Hc%elem_of_nil.
  - pose proof (walk_component_succeeds s
                  (walk_at (TRAIN_DATA +:+ "/" +:+ s) (top ≫= child s))
                  ["Timestamp"] m) as Hwalk.
    destruct (walk_component s _ _ m) as [e|m1].
    + split; [by intros [? ?]|]. intros H. exfalso.
      destruct Hwalk as [_ Hwalk].
      destruct Hwalk as [? ?]; [|done].
      destruct (top ≫= child s) as [sub|] eqn:Hs; [|constructor].
      simpl. rewrite walk_files. apply (H s sub); [by left|done].
    + rewrite IH. split.
      * intros H c sub [->|Hc]%elem_of_cons Hsub; [|by apply (H c sub)].
        destruct Hwalk as [Hwalk _]. rewrite Hsub in Hwalk. simpl in Hwalk.
        rewrite walk_files in Hwalk. apply Hwalk. by exists m1.
      * intros H c sub Hc. apply H. by right.
Qed.

(** X15.  The cell that builds [DATASET_COMPONENT_FIELDS_MAP] ends without
    an error exactly when [pd.read_csv] can read the first line of every
    file found in, or anywhere below, each directory directly below
    [TRAIN_DATA] other than [.ipynb_checkpoints]: one unreadable file in a
    nested folder of a component aborts the cell, while the files of the
    top-level checkpoints directory and those lying directly in
    [TRAIN_DATA] are never read. *)
Theorem fields_map_is_built_iff_files_are_readable :
  (∃ m, DATASET_COMPONENT_FIELDS_MAP = inr m)
  ↔ ∀ c sub, top ≫= child c = Some sub → c ≠ ".ipynb_checkpoints" →
             Forall readable (all_files sub).
Proof.
  unfold DATASET_COMPONENT_FIELDS_MAP. rewrite fields_loop_succeeds. split.
  - intros H c sub Hsub Hne. apply (H c sub); [|done].
    destruct top as [t|] eqn:Htop; [|done].
    by apply (child_is_component t c sub).
  - intros H c sub Hc Hsub. apply (H c sub Hsub).
    intros ->. by apply checkpoints_are_no_component in Hc.
Qed.

End Cells.

(** A training directory with one component that has a file of its own and
    a dated folder with another file, and the checkpoints of a notebook. *)
Definition pump_data : tree :=
  Dir [("centrifugal-pump",
        Dir [("2020",
              Dir [] [ {| file_name := "late.csv";
                          header := Some ["time"; "Sensor2"] |} ])]
            [ {| file_name := "sensors.csv";
                 header := Some ["Timestamp"; "Sensor0"; "Sensor1"] |} ]);
       (".ipynb_checkpoints", Dir [] [])]
      [].

Definition pump_fields : gmap string (list string) :=
  {[ "centrifugal-pump" := ["Timestamp"; "Sensor0"; "Sensor1"; "Sensor2"] ]}.

Lemma fields_map_entries_witness :
  components "../data/training-data" (Some pump_data) = ["centrifugal-pump"; "2020"]
  ∧ pump_fields !! "2020" = None
  ∧ pump_fields !! ".ipynb_checkpoints" = None.
Proof.
  assert (H : DATASET_COMPONENT_FIELDS_MAP "../data/training-data" (Some pump_data)
              = inr pump_fields) by (vm_compute; reflexivity).
  split; [reflexivity|]. split.
  - exact (fields_map_entries _ _ _ H "2020").
  - exact (fields_map_entries _ _ _ H ".ipynb_checkpoints").
Defined.

End DatasetCreation.

(** ** The scheduling notebook: the time zone offset *)

Module Timezone.

(** ['%02d' % n], for [0 <= n < 100]. *)
Definition two_digits (n : Z) : string :=
  String (ascii_of_nat (48 + Z.to_nat (n / 10)))
    (String (ascii_of_nat (48 + Z.to_nat (n mod 10))) EmptyString).

(** [strftime('%z')] of an aware datetime whose UTC offset is [offset]
    seconds: sign, hours and minutes, and the seconds when there are some. *)
Definition strftime_z (offset : Z) : string :=
  let sign := if offset <? 0 then "-" else "+" in
  let rest := Z.abs offset in
  let h := rest / 3600 in
  let m := rest mod 3600 / 60 in
  let s := rest mod 60 in
  sign +:+ two_digits h +:+ two_digits m +:+ (if s =? 0 then "" else two_digits s).

(** [s[:n]] and [s[n:]]. *)
Fixpoint slice_to (n : nat) (s : string) : string :=
  match n, s with
  | S n', String c s' => String c (slice_to n' s')
  | _, _ => EmptyString
  end.

Fixpoint slice_from (n : nat) (s : string) : string :=
  match n, s with
  | S n', String _ s' => slice_from n' s'
  | _, _ => s
  end.

Definition INPUT_TIMEZONE_OFFSET (tz_offset : string) : string :=
  slice_to 3 tz_offset +:+ ":" +:+ slice_from 3 tz_offset.

(** The values the notebook lists as allowed for the scheduler. *)
Definition allowed_values : list string :=
  ["+00:00"; "+00:30"; "+01:00"; "+01:30"; "+02:00"; "+02:30"; "+03:00"; "+03:30";
   "+04:00"; "+04:30"; "+05:00"; "+05:30"; "+06:00"; "+06:30"; "+07:00"; "+07:30";
   "+08:00"; "+08:30"; "+09:00"; "+09:30"; "+10:00"; "+10:30"; "+11:00"; "+11:30";
   "+12:00";
   "-00:00"; "-00:30"; "-01:00"; "-01:30"; "-02:00"; "-02:30"; "-03:00"; "-03:30";
   "-04:00"; "-04:30"; "-05:00"; "-05:30"; "-06:00"; "-06:30"; "-07:00"; "-07:30";
   "-08:00"; "-08:30"; "-09:00"; "-09:30"; "-10:00"; "-10:30"; "-11:00"; "-11:30";
   "-12:00"].

(** What the cell computes for a zone at [offset] seconds from UTC. *)
Definition offset_parameter (offset : Z) : string :=
  INPUT_TIMEZONE_OFFSET (strftime_z offset).

Definition accepted (offset : Z) : Prop :=
  (offset_parameter offset ∈ allowed_values
   ↔ offset mod 1800 = 0 ∧ -43200 <= offset <= 43200)
  ∧ offset_parameter offset ≠ "-00:00".

Lemma slices_rebuild n s : slice_to n s +:+ slice_from n s = s.
Proof.
  revert s. induction n as [|n IH]; intros [|c s]; simpl; [done..|].
  change (String c (slice_to n s +:+ slice_from n s) = String c s). by rewrite IH.
Qed.

Definition acceptedb (offset : Z) : bool :=
  let p := offset_parameter offset in
  Bool.eqb (existsb (String.eqb p) allowed_values)
           ((offset mod 1800 =? 0) && (-43200 <=? offset) && (offset <=? 43200))
  && negb (String.eqb p "-00:00").

Lemma acceptedb_sound offset : acceptedb offset = true → accepted offset.
Proof.
  unfold acceptedb, accepted. intros [Hiff Hne]%andb_prop. split.
  - apply Bool.eqb_prop in Hiff. split.
    + intros Hin%list_elem_of_In. assert (Hex : existsb (String.eqb (offset_parameter offset)) allowed_values = true).
      { apply existsb_exists. exists (offset_parameter offset). split; [done|].
        apply String.eqb_refl. }
      rewrite Hiff in Hex. apply andb_prop in Hex as [[H1 H2]%andb_prop H3]. lia.
    + intros [H1 [H2 H3]].
      assert (Hex : existsb (String.eqb (offset_parameter offset)) allowed_values = true).
      { rewrite Hiff. apply andb_true_intro. split; [apply andb_true_intro; split|]; lia. }
      apply existsb_exists in Hex as (x & Hin & ->%String.eqb_eq).
      by apply list_elem_of_In.
  - intros Heq. rewrite Heq in Hne. done.
Qed.

Lemma whole_minutes_accepted :
  forallb (fun k => acceptedb (60 * k)) (seqZ (-1439) 2879) = true.
Proof. vm_compute. reflexivity. Qed.

Lemma allowed_values_length : Forall (fun x => String.length x = 6%nat) allowed_values.
Proof. repeat constructor. Qed.

Lemma with_seconds_length offset :
  Z.abs offset mod 60 ≠ 0 → String.length (offset_parameter offset) = 8%nat.
Proof.
  intros Hs. unfold offset_parameter, strftime_z, two_digits.
  destruct (Z.eqb_spec (Z.abs offset mod 60) 0) as [|_]; [done|].
  by destruct (offset <? 0).
Qed.

(** X10.  For a zone at a given offset from UTC (in seconds, less than a
    day either way), the value the cell builds for [INPUT_TIMEZONE_OFFSET]
    is one of the values the notebook lists as allowed exactly when the
    offset is a whole number of half hours between -12:00 and +12:00: zones
    at a quarter of an hour or beyond twelve hours get a value outside the
    list, and nothing checks it.  The listed value [-00:00] is never built;
    UTC gives [+00:00]. *)
Theorem offset_is_allowed_for_half_hours_only offset :
  -86400 < offset < 86400 →
  (offset_parameter offset ∈ allowed_values
   ↔ offset mod 1800 = 0 ∧ -43200 <= offset <= 43200)
  ∧ offset_parameter offset ≠ "-00:00".
Proof.
  intros Hrange. change (accepted offset).
  destruct (decide (Z.abs offset mod 60 = 0)) as [Hmin|Hsec].
  - assert (Hk : offset = 60 * (offset / 60)) by (Z.div_mod_to_equations; lia).
    rewrite Hk. apply acceptedb_sound.
    pose proof whole_minutes_accepted as Hall. rewrite forallb_forall in Hall.
    apply (Hall (offset / 60)), list_elem_of_In, elem_of_seqZ.
    Z.div_mod_to_equations; lia.
  - pose proof (with_seconds_length offset Hsec) as Hlen. split.
    + split.
      * intros Hin. pose proof allowed_values_length as Hall.
        rewrite Forall_forall in Hall. apply Hall in Hin. congruence.
      * intros [Hhalf _]. exfalso. apply Hsec. Z.div_mod_to_equations; lia.
    + intros Heq. by rewrite Heq in Hlen.
Qed.

(** A zone at +05:45. *)
Lemma offset_is_allowed_for_half_hours_only_witness :
  (offset_parameter 20700 ∈ allowed_values
   ↔ 20700 mod 1800 = 0 ∧ -43200 <= 20700 <= 43200)
  ∧ offset_parameter 20700 ≠ "-00:00".
Proof. apply (offset_is_allowed_for_half_hours_only 20700). lia. Defined.

End Timezone.

(** ** The data preparation notebook *)

Module DataPreparation.

Import FileTree.

(** *** The check of the bucket *)

Inductive notice : Type :=
| BucketExists (bucket : string).         (* Bucket ... exists *)

Inductive failure : Type :=
| UpdateBucketName                        (* Please update your Amazon S3 bucket name ... *)
| BucketIsPrivate (bucket : string)       (* Bucket ... is private: access is forbidden! *)
| BucketDoesNotExist (bucket : string)    (* Bucket ... does not exist! *)
| ValueError (code : string).             (* raised by int() in the handler *)

Section BucketCheck.

(** [head_bucket] either returns ([None]) or raises a [ClientError] with an
    error code; [int] is Python's conversion of a string, [None] when it
    raises.  Exceptions of [head_bucket] other than [ClientError] are not
    caught by the cell and are left out here. *)
Variable head_bucket : string → option string.
Variable int : string → option Z.

Definition check_bucket (BUCKET : string) : failure + list notice :=
  if String.eqb BUCKET "<<YOUR_BUCKET>>" then inl UpdateBucketName
  else
    match head_bucket BUCKET with
    | None => inr [BucketExists BUCKET]
    | Some code =>
        match int code with
        | None => inl (ValueError code)
        | Some error_code =>
            if error_code =? 403 then inl (BucketIsPrivate BUCKET)
            else if error_code =? 404 then inl (BucketDoesNotExist BUCKET)
            else inr []
        end
    end.

(** X11.  The cell that checks the bucket ends without a message and without
    an error exactly when the name is not the placeholder and [head_bucket]
    failed with a numeric code other than 403 and 404: such a failure is
    swallowed.  So the cell confirms access only by its printed line, which
    appears exactly when [head_bucket] returned. *)
Theorem other_error_codes_are_swallowed BUCKET :
  (check_bucket BUCKET = inr []
   ↔ BUCKET ≠ "<<YOUR_BUCKET>>"
     ∧ ∃ code error_code,
         head_bucket BUCKET = Some code ∧ int code = Some error_code
         ∧ error_code ≠ 403 ∧ error_code ≠ 404)
  ∧ (∀ notices, check_bucket BUCKET = inr notices → notices ≠ [] →
       notices = [BucketExists BUCKET] ∧ head_bucket BUCKET = None).
Proof.
  unfold check_bucket. destruct (String.eqb_spec BUCKET "<<YOUR_BUCKET>>") as [->|Hne].
  - split; [|done]. split; [done|]. by intros [? _].
  - destruct (head_bucket BUCKET) as [code|] eqn:Hhead.
    + destruct (int code) as [error_code|] eqn:Hint.
      * destruct (Z.eqb_spec error_code 403) as [->|H403].
        { split; [|done]. split; [done|].
          intros (_ & c & n & [= <-] & Hn & ? & _). congruence. }
        destruct (Z.eqb_spec error_code 404) as [->|H404].
        { split; [|done]. split; [done|].
          intros (_ & c & n & [= <-] & Hn & _ & ?). congruence. }
        split; [|by intros ? [= <-]]. split; [|done].
        intros _. split; [done|]. by exists code, error_code.
      * split; [|done]. split; [done|].
        intros (_ & c & n & [= <-] & Hn & _). congruence.
    + split; [|by intros ? [= <-]]. split; [done|]. by intros (_ & ? & ? & [=] & _).
Qed.

End BucketCheck.

(** *** The description of the tags *)

Record sensors_state : Type := {
  sensor_df_list : list (list string);            (* the columns of each frame *)
  tags_description_dict : gmap string string
}.

(** [root.split('/')[-1]]. *)
Definition folder (root : string) : string :=
  default "" (last (split "/"%char root)).

(** The columns of a frame read from a file once [Timestamp] is its index. *)
Definition sensors (f : file) : list string :=
  filter (fun column => column ≠ "Timestamp") (default [] (header f)).

Section TagsDescription.

(** [SENSORS_DATA] is [os.path.join(TMP_DATA, 'sensors-data')] and [top] the
    directory at that path, when there is one; [to_datetime] tells whether
    [pd.to_datetime] accepts the [Timestamp] column of the file at a path. *)
Variable SENSORS_DATA : string.
Variable top : option tree.
Variable to_datetime : string → bool.

Definition process_file (root : string) (f : file) (st : sensors_state)
  : result sensors_state :=
  match header f with
  | None => raise DataFrameError
  | Some columns =>
      if bool_decide ("Timestamp" ∈ columns) then
        if to_datetime (root +:+ "/" +:+ file_name f) then
          let df_columns := filter (fun column => column ≠ "Timestamp") columns in
          component ← index_from_end (split "/"%char root) 1;
          let current_sensors : gmap string string :=
            list_to_map (zip df_columns (replicate (length df_columns) component)) in
          mret {| sensor_df_list := sensor_df_list st ++ [df_columns];
                  tags_description_dict := current_sensors ∪ tags_description_dict st |}
        else raise DatetimeError
      else raise (KeyError "Timestamp")
  end.

Fixpoint for_files (root : string) (files : list file) (st : sensors_state)
  : result sensors_state :=
  match files with
  | [] => mret st
  | f :: rest => st' ← process_file root f st; for_files root rest st'
  end.

Fixpoint for_steps (steps : list (string * list string * list file)) (st : sensors_state)
  : result sensors_state :=
  match steps with
  | [] => mret st
  | (root, _, files) :: rest => st' ← for_files root files st; for_steps rest st'
  end.

Definition describe_tags : result sensors_state :=
  for_steps (walk_at SENSORS_DATA top)
    {| sensor_df_list := []; tags_description_dict := ∅ |}.

(** The files in the order of the walk, each with the path of its
    directory. *)
Definition placed (steps : list (string * list string * list file)) : list (string * file) :=
  flat_map (fun step => (fun f => (step.1.1, f)) <$> step.2) steps.

(** The folder of the last file that has a column [tag]. *)
Definition described (tag : string) (l : list (string * file)) : option string :=
  (fun rf => folder rf.1) <$> last (filter (fun rf => tag ∈ sensors rf.2) l).

Lemma index_last {A} (l : list A) x : last l = Some x → index_from_end l 1 = inr x.
Proof.
  intros H. unfold index_from_end.
  destruct l as [|y l _] using rev_ind; [done|].
  rewrite last_snoc in H. injection H as ->. by rewrite rev_app_distr.
Qed.

Lemma component_is_folder root : index_from_end (split "/"%char root) 1 = inr (folder root).
Proof.
  apply index_last. unfold folder.
  pose proof (split_nonempty "/"%char root) as Hne.
  destruct (split "/"%char root) as [|w ws] using rev_ind; [done|].
  by rewrite last_snoc.
Qed.

Lemma current_sensors_lookup (l : list string) (c tag : string) :
  (list_to_map (zip l (replicate (length l) c)) : gmap string string) !! tag
  = if bool_decide (tag ∈ l) then Some c else None.
Proof.
  induction l as [|x l IH]; simpl.
  - apply lookup_empty.
  - destruct (decide (x = tag)) as [->|Hne].
    + rewrite lookup_insert_eq. by rewrite bool_decide_true by by left.
    + rewrite lookup_insert_ne, IH by done.
      case_bool_decide as Hl; case_bool_decide as Hxl; try done.
      * exfalso. apply Hxl. by right.
      * apply elem_of_cons in Hxl as [?|?]; [by subst|done].
Qed.

Lemma described_cons tag root f l :
  described tag ((root, f) :: l)
  = match described tag l with
    | Some c => Some c
    | None => if bool_decide (tag ∈ sensors f) then Some (folder root) else None
    end.
Proof.
  unfold described. rewrite filter_cons. simpl.
  case_bool_decide as Hin.
  - rewrite decide_True by done.
    destruct (filter _ l) as [|y l'] eqn:Hl; [done|].
    change ((root, f) :: y :: l') with ([(root, f)] ++ y :: l').
    rewrite last_app. by destruct (last (y :: l')) eqn:Hlast.
  - rewrite decide_False by done. by destruct (last _).
Qed.

Lemma described_app tag l1 l2 :
  described tag (l1 ++ l2)
  = match described tag l2 with
    | Some c => Some c
    | None => described tag l1
    end.
Proof.
  unfold described. rewrite filter_app, last_app. by destruct (last (filter _ l2)).
Qed.

Lemma process_file_lookup root f st st' :
  process_file root f st = inr st' →
  ∀ tag, tags_description_dict st' !! tag
         = if bool_decide (tag ∈ sensors f) then Some (folder root)
           else tags_description_dict st !! tag.
Proof.
  unfold process_file, sensors. intros H tag.
  destruct (header f) as [columns|]; [|done].
  case_bool_decide; [|done]. destruct (to_datetime _); [|done].
  rewrite component_is_folder in H. simpl in H. inversion H; subst; simpl.
  rewrite lookup_union, current_sensors_lookup.
  case_bool_decide; [by destruct (_ !! _)|]. by rewrite (left_id None _).
Qed.

Lemma for_files_lookup root files : ∀ st st',
  for_files root files st = inr st' →
  ∀ tag, tags_description_dict st' !! tag
         = match described tag ((fun f => (root, f)) <$> files) with
           | Some c => Some c
           | None => tags_description_dict st !! tag
           end.
Proof.
  induction files as [|f files IH]; intros st st' H tag; simpl in H.
  - by inversion H.
  - destruct (process_file root f st) as [e|st1] eqn:Hf; [done|]. simpl in H.
    rewrite (IH _ _ H tag). csimpl. rewrite described_cons.
    destruct (described tag _); [done|].
    rewrite (process_file_lookup _ _ _ _ Hf tag). by case_bool_decide.
Qed.

Lemma for_steps_lookup steps : ∀ st st',
  for_steps steps st = inr st' →
  ∀ tag, tags_description_dict st' !! tag
         = match described tag (placed steps) with
           | Some c => Some c
           | None => tags_description_dict st !! tag
           end.
Proof.
  induction steps as [|[[root ds] files] steps IH]; intros st st' H tag; simpl in H.
  - by inversion H.
  - destruct (for_files root files st) as [e|st1] eqn:Hf; [done|]. simpl in H.
    rewrite (IH _ _ H tag). unfold placed. simpl. fold (placed steps).
    rewrite described_app. destruct (described tag (placed steps)); [done|].
    apply (for_files_lookup _ _ _ _ Hf).
Qed.

(** X12.  When the loop over the sensor files ends without an error, a tag
    is described exactly when some file has it as a column other than
    [Timestamp], and its component is the folder of the last such file in
    the order of the walk: a sensor that occurs under two components is
    attributed to the one walked last.  [Timestamp] is never a tag. *)
Theorem tag_is_described_by_its_last_folder st :
  describe_tags = inr st →
  (∀ tag, tags_description_dict st !! tag
          = described tag (placed (walk_at SENSORS_DATA top)))
  ∧ tags_description_dict st !! "Timestamp" = None.
Proof.
  intros H.
  assert (Hall : ∀ tag, tags_description_dict st !! tag
                        = described tag (placed (walk_at SENSORS_DATA top))).
  { intros tag. rewrite (for_steps_lookup _ _ _ H tag). simpl.
    rewrite lookup_empty. by destruct (described _ _). }
  split; [done|]. rewrite Hall. unfold described.
  destruct (last _) as [[root f]|] eqn:Hlast; [|done]. exfalso.
  apply last_Some_elem_of, list_elem_of_filter in Hlast as [Hin _].
  unfold sensors in Hin. simpl in Hin. by apply list_elem_of_filter in Hin as [? _].
Qed.

End TagsDescription.

(** The folder of [root/name] is [name]. *)
Lemma folder_of_child root name :
  occurs "/" name = false → folder (root +:+ "/" +:+ name) = name.
Proof.
  intros H. unfold folder.
  change (root +:+ "/" +:+ name) with (root +:+ String "/" name).
  rewrite split_app, (split_without_separator _ _ H). by rewrite last_snoc.
Qed.

(** [root/n1/.../nk]. *)
Fixpoint below (root : string) (names : list string) : string :=
  match names with
  | [] => root
  | name :: rest => below (root +:+ "/" +:+ name) rest
  end.

(** The files directly in a directory. *)
Definition held (t : tree) : list file :=
  match t with Dir _ files => files end.

(** The directory reached from [t] along a path of directory names. *)
Inductive reaches : tree → list string → tree → Prop :=
| reaches_here t : reaches t [] t
| reaches_below dirs files name sub names d :
    (name, sub) ∈ dirs → reaches sub names d →
    reaches (Dir dirs files) (name :: names) d.

Lemma walk_reaches t : ∀ root step,
  step ∈ walk root t
  ↔ ∃ names d, reaches t names d
               ∧ step = (below root names, (subdirs d).*1, held d).
Proof.
  induction t as [dirs files IH] using tree_induction. intros root step.
  rewrite Forall_forall in IH. rewrite walk_unfold, elem_of_cons. split.
  - intros [->|Hin].
    + exists [], (Dir dirs files). split; [constructor|done].
    + apply list_elem_of_In, in_flat_map in Hin as ([name sub] & Hd & Hstep).
      apply list_elem_of_In in Hd, Hstep. simpl in Hstep.
      apply (IH (name, sub) Hd) in Hstep as (names & d & Hreach & ->).
      exists (name :: names), d. split; [|done]. by apply reaches_below with sub.
  - intros (names & d & Hreach & ->).
    inversion Hreach as [|? ? name sub names' ? Hd Hsub]; subst; [by left|]. right.
    apply list_elem_of_In, in_flat_map. exists (name, sub).
    split; apply list_elem_of_In; [done|]. simpl.
    apply (IH (name, sub) Hd). by exists names', d.
Qed.

Lemma folder_below root names :
  Forall (fun name => occurs "/" name = false) names →
  folder (below root names) = default (folder root) (last names).
Proof.
  intros Hnames. revert root.
  induction Hnames as [|name names Hname Hnames IH]; intros root; simpl; [done|].
  rewrite IH, (folder_of_child _ _ Hname). destruct names as [|name' names]; [done|].
  rewrite last_cons_cons.
  by destruct (proj2 (last_is_Some (name' :: names)) ltac:(done)) as [x ->].
Qed.

(** X13.  Every step of the walk is a directory reached from the starting
    one along a path of directory names: its files are the files directly
    in that directory and its path is the starting path followed by the
    names.  In a tree whose directory names have no [/], the component
    computed from the path is the last name of that path, that is, the name
    of the very directory that holds the files, whatever the depth; only
    for the starting directory itself is it the last part of the starting
    path. *)
Theorem component_is_the_holding_directory t root step :
  (∀ c, has_dir t c → occurs "/" c = false) →
  step ∈ walk root t →
  ∃ names d,
    reaches t names d
    ∧ step = (below root names, (subdirs d).*1, held d)
    ∧ folder step.1.1 = default (folder root) (last names).
Proof.
  intros Hwf (names & d & Hreach & ->)%walk_reaches.
  exists names, d. split; [done|]. split; [done|]. simpl.
  apply folder_below. clear root.
  induction Hreach as [|dirs files name sub names d Hin Hreach IH]; constructor.
  - apply Hwf. by apply has_child with sub.
  - apply IH. intros c Hc. apply Hwf. by apply has_deeper with name sub.
Qed.

(** *** A small dataset *)

(** Two components whose files share a sensor. *)
Definition SENSORS_DATA : string := "../data/interim/pump/sensors-data".

Definition impeller_file : file :=
  {| file_name := "component2_file1.csv";
     header := Some ["Timestamp"; "Sensor0"; "Sensor1"] |}.
Definition motor_file : file :=
  {| file_name := "component3_file1.csv";
     header := Some ["Timestamp"; "Sensor1"; "Sensor2"] |}.

Definition sensors_data : tree :=
  Dir [("impeller", Dir [] [impeller_file]); ("motor", Dir [] [motor_file])] [].

Definition pump_tags : sensors_state :=
  {| sensor_df_list := [["Sensor0"; "Sensor1"]; ["Sensor1"; "Sensor2"]];
     tags_description_dict :=
       {[ "Sensor0" := "impeller"; "Sensor1" := "motor"; "Sensor2" := "motor" ]} |}.

Lemma tag_is_described_by_its_last_folder_witness :
  describe_tags SENSORS_DATA (Some sensors_data) (fun _ => true) = inr pump_tags
  ∧ tags_description_dict pump_tags !! "Sensor1" = Some "motor"
  ∧ tags_description_dict pump_tags !! "Timestamp" = None.
Proof.
  assert (H : describe_tags SENSORS_DATA (Some sensors_data) (fun _ => true)
              = inr pump_tags) by (vm_compute; reflexivity).
  split; [exact H|]. split.
  - exact (proj1 (tag_is_described_by_its_last_folder _ _ _ _ H) "Sensor1").
  - exact (proj2 (tag_is_described_by_its_last_folder _ _ _ _ H)).
Defined.

Lemma component_is_the_holding_directory_witness :
  (∃ names d,
     reaches sensors_data names d
     ∧ (SENSORS_DATA +:+ "/motor", @nil string, [motor_file])
       = (below SENSORS_DATA names, (subdirs d).*1, held d)
     ∧ folder (SENSORS_DATA +:+ "/motor", @nil string, [motor_file]).1.1
       = default (folder SENSORS_DATA) (last names))
  ∧ reaches sensors_data ["motor"] (Dir [] [motor_file])
  ∧ below SENSORS_DATA ["motor"] = SENSORS_DATA +:+ "/motor"
  ∧ default (folder SENSORS_DATA) (last ["motor"]) = "motor".
Proof.
  split; [|split; [|split; reflexivity]].
  - apply (component_is_the_holding_directory sensors_data SENSORS_DATA
             (SENSORS_DATA +:+ "/motor", [], [motor_file])).
    + intros c (step & Hstep & Hc)%(walk_reports_dirs sensors_data "").
      apply list_elem_of_In in Hstep. simpl in Hstep.
      destruct Hstep as [<-|[<-|[<-|[]]]]; apply list_elem_of_In in Hc; simpl in Hc.
      * by destruct Hc as [<-|[<-|[]]].
      * done.
      * done.
    + apply list_elem_of_In. simpl. right. right. by left.
  - apply reaches_below with (Dir [] [motor_file]); [|constructor].
    apply list_elem_of_In. simpl. right. by left.
Defined.

End DataPreparation.
